(** * mysqltsv: a shallow embedding of the TSV encoder and its properties

    The development models [mysqltsv.go]: the field escaper [escapeField],
    the value converter [valueToBytes], and the row encoder [Encoder] with
    its methods.  What the package takes from Go's standard library is
    modelled beside it, as far as the package uses it: [bufio.Writer] over
    an [io.Writer], [strconv]'s decimal formatting, and [time.Time] with
    the three layouts the converter formats.

    Go values become explicit data: a [[]byte] whose nil-ness matters is an
    [option (list byte)], an [error] is an [option error], an [int] is a
    [Z] with its wrap-around written out, and a method on [*Encoder] is a
    function from the encoder before the call to the encoder after it. *)

From Stdlib Require Import List ZArith Lia Bool String.
From Stdlib Require Import Strings.Byte.
Import ListNotations.

Local Open Scope Z_scope.

(* ================================================================== *)
(** * Bytes and slices *)

Module Bytes.

(** The byte values the escaper names, as the source writes them. *)
Definition NUL : byte := x00.        (* 0    *)
Definition BS : byte := x08.         (* '\b' *)
Definition TAB : byte := x09.        (* '\t' *)
Definition LF : byte := x0a.         (* '\n' *)
Definition CR : byte := x0d.         (* '\r' *)
Definition SUB : byte := x1a.        (* 26   *)
Definition QUOTE : byte := x22.      (* the double quote *)
Definition BACKSLASH : byte := x5c.  (* '\\' *)

(** A Go [[]byte] seen through [len], [cap] and [append]: its elements and
    its capacity.  The nil slice has no elements and capacity 0. *)
Record slice := mkslice { elems : list byte; cap : nat }.

Definition nil_slice : slice := mkslice [] 0.

(** A [[]byte] argument whose nil-ness the code inspects: [None] is the nil
    slice, [Some l] a non-nil slice holding [l] (possibly empty). *)
Definition bytes := option (list byte).

(** [[]byte(s)] for a Go string [s]: never nil, also for the empty string. *)
Definition of_string (s : list byte) : bytes := Some s.

Definition count (c : byte) (l : list byte) : nat :=
  List.length (filter (fun x => Byte.eqb x c) l).

End Bytes.
Import Bytes.

(* ================================================================== *)
(** * The field escaper *)

(** [escapeField]: the nil test, the capacity test that replaces
    [appendTo] by a fresh empty slice, the opening quote, the [range] loop
    with its [switch], the closing quote.  The loop is a left fold whose
    accumulator is [appendTo].  [len(data)+2] cannot overflow a Go [int]. *)
Definition escapeField (appendTo : slice) (data : bytes) : list byte :=
  match data with
  | None => [x5c; x4e]                                     (* '\\', 'N' *)
  | Some data =>
      let appendTo :=
        if (cap appendTo <? List.length data + 2)%nat then [] else elems appendTo in
      let appendTo := appendTo ++ [x22] in
      let appendTo :=
        fold_left
          (fun appendTo c =>
             match c with
             | x00 => appendTo ++ [x5c; x30]               (* '\\', '0' *)
             | x08 => appendTo ++ [x5c; x62]               (* '\\', 'b' *)
             | x0a => appendTo ++ [x5c; x6e]               (* '\\', 'n' *)
             | x0d => appendTo ++ [x5c; x72]               (* '\\', 'r' *)
             | x09 => appendTo ++ [x5c; x74]               (* '\\', 't' *)
             | x1a => appendTo ++ [x5c; x5a]               (* '\\', 'Z' *)
             | x5c => appendTo ++ [x5c; x5c]               (* '\\', '\\' *)
             | x22 => appendTo ++ [x5c; x22]               (* '\\', double quote *)
             | c => appendTo ++ [c]
             end)
          data appendTo in
      appendTo ++ [x22]
  end.

(** The escaping table as the specification words it: one row per special
    byte, every other byte verbatim. *)
Definition spec_escape_byte (c : byte) : list byte :=
  if Byte.eqb c NUL then [BACKSLASH; x30]
  else if Byte.eqb c BS then [BACKSLASH; x62]
  else if Byte.eqb c LF then [BACKSLASH; x6e]
  else if Byte.eqb c CR then [BACKSLASH; x72]
  else if Byte.eqb c TAB then [BACKSLASH; x74]
  else if Byte.eqb c SUB then [BACKSLASH; x5a]
  else if Byte.eqb c BACKSLASH then [BACKSLASH; BACKSLASH]
  else if Byte.eqb c QUOTE then [BACKSLASH; QUOTE]
  else [c].

Definition is_special (c : byte) : bool :=
  existsb (Byte.eqb c) [NUL; BS; LF; CR; TAB; SUB; BACKSLASH; QUOTE].

(** The escaped field the specification describes for a present value. *)
Definition spec_escape (data : list byte) : list byte :=
  QUOTE :: flat_map spec_escape_byte data ++ [QUOTE].

(* ================================================================== *)
(** * Errors *)

(** A Go [error] value, identified by its message. *)
Inductive error : Type :=
| errorString (msg : string).

(** [io.ErrShortWrite]. *)
Definition ErrShortWrite : error := errorString "short write".

(** [fmt.Errorf] with the converter's format and the [%T] of the value. *)
Definition Errorf_cant_encode (T : string) : error :=
  errorString ("can't encode type " ++ T ++ " to TSV").

Definition is_nil {A : Type} (o : option A) : bool :=
  match o with None => true | Some _ => false end.

(* ================================================================== *)
(** * The output sink: an [io.Writer] behind a [bufio.Writer] *)

Module io.

(** The [io.Writer] handed to [NewEncoder], as its caller observes it: the
    bytes it has taken so far, and how it will answer the coming [Write]
    calls.  An answer [None] takes the whole argument and returns a nil
    error; [Some (k, err)] takes at most [k] bytes and returns [err].  Once
    the answers run out every call succeeds.  This is the [io.Writer]
    contract: fewer bytes than asked for come with a non-nil error. *)
Record Writer := mkWriter {
  taken : list byte;
  answers : list (option (nat * error))
}.

Definition Write (w : Writer) (p : list byte) : (nat * option error) * Writer :=
  match answers w with
  | [] => ((List.length p, None), mkWriter (taken w ++ p) [])
  | None :: rest => ((List.length p, None), mkWriter (taken w ++ p) rest)
  | Some (k, err) :: rest =>
      let n := Nat.min k (List.length p) in
      ((n, Some err), mkWriter (taken w ++ firstn n p) rest)
  end.

(** A sink that never fails, such as a [bytes.Buffer]. *)
Definition Buffer (content : list byte) : Writer := mkWriter content [].

End io.

Module bufio.

(** [bufio.Writer], after the standard library's source: the sticky
    error, the buffered bytes [buf[0:n]], the buffer size [len(buf)] and
    the underlying writer. *)
Record Writer := mkWriter {
  err : option error;
  buf : list byte;
  size : nat;
  wr : io.Writer
}.

Definition defaultBufSize : nat := 4096.

(** [NewWriter].  (Handed a [*bufio.Writer] that is large enough, the
    library returns it as it is; the sink here is never one.) *)
Definition NewWriter (w : io.Writer) : Writer :=
  mkWriter None [] defaultBufSize w.

Definition Buffered (b : Writer) : nat := List.length (buf b).
Definition Available (b : Writer) : nat := (size b - Buffered b)%nat.

(** [AvailableBuffer]: an empty slice over the free part of the buffer.
    What [escapeField] appends to it is handed to [Write] at once, so only
    its contents matter; sharing storage with the buffer changes no byte. *)
Definition AvailableBuffer (b : Writer) : slice := mkslice [] (Available b).

Definition Flush (b : Writer) : option error * Writer :=
  match err b with
  | Some e => (Some e, b)
  | None =>
      if (Buffered b =? 0)%nat then (None, b)
      else
        let '((n, werr), wr') := io.Write (wr b) (buf b) in
        let werr :=
          if (n <? Buffered b)%nat && is_nil werr then Some ErrShortWrite else werr in
        match werr with
        | Some e => (Some e, mkWriter (Some e) (skipn n (buf b)) (size b) wr')
        | None => (None, mkWriter None [] (size b) wr')
        end
  end.

(** The condition of the loop of [Write]. *)
Definition loop_cond (b : Writer) (p : list byte) : bool :=
  (Available b <? List.length p)%nat && is_nil (err b).

(** The loop of [Write]: while the argument does not fit and no error is
    set, either pass it to the underlying writer (empty buffer) or fill the
    buffer and flush.  Returns the writer, the rest of [p] and [nn]. *)
Fixpoint Write_loop (fuel : nat) (b : Writer) (p : list byte) (nn : nat)
  : Writer * list byte * nat :=
  if loop_cond b p then
    match fuel with
    | O => (b, p, nn)
    | S fuel =>
        if (Buffered b =? 0)%nat then
          let '((n, werr), wr') := io.Write (wr b) p in
          Write_loop fuel (mkWriter werr (buf b) (size b) wr') (skipn n p) (nn + n)
        else
          let n := Nat.min (Available b) (List.length p) in
          let b1 := mkWriter (err b) (buf b ++ firstn n p) (size b) (wr b) in
          Write_loop fuel (snd (Flush b1)) (skipn n p) (nn + n)
    end
  else (b, p, nn).

(** The loop runs at most twice (lemma [Write_loop_fuel]): a pass that fills
    and flushes the buffer leaves it empty for the next. *)
Definition Write (b : Writer) (p : list byte) : (nat * option error) * Writer :=
  let '(b, p, nn) := Write_loop 2 b p 0 in
  match err b with
  | Some e => ((nn, Some e), b)
  | None =>
      let n := Nat.min (Available b) (List.length p) in
      ((nn + n, None), mkWriter None (buf b ++ firstn n p) (size b) (wr b))%nat
  end.

Definition put (b : Writer) (c : byte) : Writer :=
  mkWriter (err b) (buf b ++ [c]) (size b) (wr b).

Definition WriteByte (b : Writer) (c : byte) : option error * Writer :=
  match err b with
  | Some e => (Some e, b)
  | None =>
      if (Available b <=? 0)%nat then
        let '(ferr, b1) := Flush b in
        match ferr with
        | Some _ => (err b1, b1)
        | None => (None, put b1 c)
        end
      else (None, put b c)
  end.

(** Every byte the writer has accepted: those passed on, then those still
    buffered. *)
Definition stream (b : Writer) : list byte := io.taken (wr b) ++ buf b.

End bufio.

(* ================================================================== *)
(** * Decimal text: [strconv] and the integer fields of [time.Format] *)

Module strconv.

Definition digit (d : Z) : byte :=
  nth (Z.to_nat d) [x30; x31; x32; x33; x34; x35; x36; x37; x38; x39] x30.

Definition is_digit (c : byte) : bool :=
  existsb (Byte.eqb c) [x30; x31; x32; x33; x34; x35; x36; x37; x38; x39].

(** The last [width] decimal digits of [u], most significant first. *)
Fixpoint fixed (width : nat) (u : Z) : list byte :=
  match width with
  | O => []
  | S w => fixed w (u / 10) ++ [digit (u mod 10)]
  end.

Fixpoint ndigits_fuel (fuel : nat) (u : Z) : nat :=
  match fuel with
  | O => 1
  | S f => if u <? 10 then 1 else S (ndigits_fuel f (u / 10))
  end.

(** The number of decimal digits of [u >= 0]; [1] for [0].  A number has
    no more decimal digits than binary ones, so the fuel is enough. *)
Definition ndigits (u : Z) : nat := ndigits_fuel (Z.to_nat (Z.log2 u)) u.

(** [strconv.FormatUint(u, 10)]. *)
Definition FormatUint (u : Z) : list byte := fixed (ndigits u) u.

(** [strconv.FormatInt(x, 10)]. *)
Definition FormatInt (x : Z) : list byte :=
  if x <? 0 then x2d :: FormatUint (- x) else FormatUint x.

End strconv.

(* ================================================================== *)
(** * [time.Time] *)

Module time.

(** A [*time.Location]: the offset, in seconds east of UTC, in effect at a
    given Unix time. *)
Record Location := mkLocation { lookup : Z -> Z }.

Definition UTC : Location := mkLocation (fun _ => 0).
Definition FixedZone (offset : Z) : Location := mkLocation (fun _ => offset).

(** An instant (Unix seconds, and nanoseconds within the second, from 0
    to 999999999) with the location its wall clock is read in. *)
Record Time := mkTime { unix : Z; nsec : Z; loc : Location }.

Definition In (t : Time) (l : Location) : Time := mkTime (unix t) (nsec t) l.

(** Seconds since the epoch on the wall clock of the time's location. *)
Definition wall (t : Time) : Z := unix t + lookup (loc t) (unix t).

Definition Clock (t : Time) : Z * Z * Z :=
  let s := wall t mod 86400 in (s / 3600, (s mod 3600) / 60, s mod 60).

Definition Nanosecond (t : Time) : Z := nsec t.

(** Year, month and day of a day number counted from 1970-01-01, in the
    proleptic Gregorian calendar. *)
Definition civil (days : Z) : Z * Z * Z :=
  let z := days + 719468 in
  let era := z / 146097 in
  let doe := z - era * 146097 in
  let yoe := (doe - doe / 1460 + doe / 36524 - doe / 146096) / 365 in
  let doy := doe - (365 * yoe + yoe / 4 - yoe / 100) in
  let mp := (5 * doy + 2) / 153 in
  let d := doy - (153 * mp + 2) / 5 + 1 in
  let m := if mp <? 10 then mp + 3 else mp - 9 in
  let y := yoe + era * 400 in
  (if m <=? 2 then y + 1 else y, m, d).

Definition Date (t : Time) : Z * Z * Z := civil (wall t / 86400).

(** [appendInt]: a sign for negative numbers, then the decimal digits
    padded with zeros to [width]. *)
Definition appendInt (x : Z) (width : nat) : list byte :=
  let u := Z.abs x in
  (if x <? 0 then [x2d] else [])
    ++ strconv.fixed (Nat.max width (strconv.ndigits u)) u.

Fixpoint trim_zeros_rev (l : list byte) : list byte :=
  match l with
  | x30 :: l' => trim_zeros_rev l'
  | _ => l
  end.

(** Drop the trailing ['0'] bytes. *)
Definition trim_zeros (l : list byte) : list byte := rev (trim_zeros_rev (rev l)).

(** The digits of the [.999999999] element: nine digits of the nanosecond
    with the trailing zeros removed. *)
Definition frac_digits (t : Time) : list byte :=
  trim_zeros (appendInt (Nanosecond t) 9).

(** The [.999999999] element: nothing for a zero nanosecond, else the dot
    and the digits. *)
Definition appendNano (t : Time) : list byte :=
  if Nanosecond t =? 0 then [] else x2e :: frac_digits t.

Definition format_date (t : Time) : list byte :=
  let '(y, m, d) := Date t in
  appendInt y 4 ++ [x2d] ++ appendInt m 2 ++ [x2d] ++ appendInt d 2.

Definition format_clock (t : Time) : list byte :=
  let '(hour, min, sec) := Clock t in
  appendInt hour 2 ++ [x3a] ++ appendInt min 2 ++ [x3a] ++ appendInt sec 2.

(** [Time.Format] at the three layouts the converter uses; no other layout
    is modelled. *)
Definition Format (t : Time) (layout : string) : list byte :=
  if String.eqb layout "2006-01-02" then format_date t
  else if String.eqb layout "2006-01-02 15:04:05" then
    format_date t ++ [x20] ++ format_clock t
  else if String.eqb layout "2006-01-02 15:04:05.999999999" then
    format_date t ++ [x20] ++ format_clock t ++ appendNano t
  else [].

End time.

(* ================================================================== *)
(** * The value converter *)

(** [EncoderOptions]; the [Location] pointer may be nil. *)
Record EncoderOptions := mkEncoderOptions { Location : option time.Location }.

(** A Go value of type [any], by dynamic type.  [Vbytes] and [VRawMessage]
    may hold a nil slice.  The integer constructors hold a number of their
    type's range.  [VValuer T out verr] is a value of type [T] that
    implements [driver.Valuer] and whose [Value] method returns [out] and
    [verr]; [Vother T] is a value of any remaining type [T]. *)
Inductive value : Type :=
| Vnil
| Vstring (s : list byte)
| Vbytes (b : bytes)
| VRawMessage (b : bytes)
| Vuint8 (n : Z) | Vint8 (n : Z)
| Vuint16 (n : Z) | Vint16 (n : Z)
| Vuint32 (n : Z) | Vint32 (n : Z)
| Vuint64 (n : Z) | Vint64 (n : Z)
| Vint (n : Z) | Vuint (n : Z)
| Vbool (b : bool)
| VTime (t : time.Time)
| VValuer (T : string) (out : value) (verr : option error)
| Vother (T : string).

(** The type switch of [valueToBytes], on a value already past the
    [driver.Valuer] test. *)
Definition typeSwitch (v : value) (cfg : option EncoderOptions)
  : bytes * option error :=
  match v with
  | Vstring v => (of_string v, None)
  | Vbytes v => (v, None)
  | VRawMessage v => (v, None)
  | Vuint8 v => (Some (strconv.FormatUint v), None)
  | Vint8 v => (Some (strconv.FormatInt v), None)
  | Vuint16 v => (Some (strconv.FormatUint v), None)
  | Vint16 v => (Some (strconv.FormatInt v), None)
  | Vuint32 v => (Some (strconv.FormatUint v), None)
  | Vint32 v => (Some (strconv.FormatInt v), None)
  | Vuint64 v => (Some (strconv.FormatUint v), None)
  | Vint64 v => (Some (strconv.FormatInt v), None)
  | Vint v => (Some (strconv.FormatInt v), None)
  | Vuint v => (Some (strconv.FormatUint v), None)
  | Vnil => (None, None)
  | Vbool v => if v then (Some [x31], None) else (Some [x30], None)
  | VTime v =>
      let v :=
        match cfg with
        | Some (mkEncoderOptions (Some l)) => time.In v l
        | _ => v
        end in
      let '(hour, min, sec) := time.Clock v in
      let nsec := time.Nanosecond v in
      if (hour =? 0) && (min =? 0) && (sec =? 0) && (nsec =? 0) then
        (Some (time.Format v "2006-01-02"), None)
      else if nsec =? 0 then
        (Some (time.Format v "2006-01-02 15:04:05"), None)
      else
        (Some (time.Format v "2006-01-02 15:04:05.999999999"), None)
  | VValuer T _ _ => (None, Some (Errorf_cant_encode T))
  | Vother T => (None, Some (Errorf_cant_encode T))
  end.

Definition valueToBytes (v : value) (cfg : option EncoderOptions)
  : bytes * option error :=
  match v with
  | VValuer _ out (Some verr) => (None, Some verr)
  | VValuer _ out None => typeSwitch out cfg
  | v => typeSwitch v cfg
  end.

(** [EscapeValue]. *)
Definition EscapeValue (v : value) (cfg : option EncoderOptions)
  : bytes * option error :=
  match valueToBytes v cfg with
  | (_, Some e) => (None, Some e)
  | (b, None) => (Some (escapeField nil_slice b), None)
  end.

(* ================================================================== *)
(** * The row encoder *)

Module int.

(** Go's [int] on the 64-bit platforms: two's complement wrap-around. *)
Definition max : Z := 2 ^ 63 - 1.
Definition wrap (z : Z) : Z := (z + 2 ^ 63) mod 2 ^ 64 - 2 ^ 63.

(** [x--] *)
Definition dec (x : Z) : Z := wrap (x - 1).

End int.

Record Encoder := mkEncoder {
  w : bufio.Writer;
  numColumnsPerRow : Z;
  colsLeftInRow : Z;
  err : option error;
  encoderOptions : option EncoderOptions
}.

Definition NewEncoder (sink : io.Writer) (numColumns : Z)
  (cfg : option EncoderOptions) : Encoder :=
  mkEncoder (bufio.NewWriter sink) numColumns numColumns None cfg.

Definition writeField (e : Encoder) (b : bytes) : Encoder :=
  let buf := bufio.AvailableBuffer (w e) in
  let '((_, werr), w1) := bufio.Write (w e) (escapeField buf b) in
  match werr with
  | Some _ =>
      mkEncoder w1 (numColumnsPerRow e) (colsLeftInRow e) werr (encoderOptions e)
  | None =>
      let cols := int.dec (colsLeftInRow e) in
      if cols =? 0 then
        let '(werr, w2) := bufio.WriteByte w1 LF in
        mkEncoder w2 (numColumnsPerRow e) (numColumnsPerRow e) werr (encoderOptions e)
      else
        let '(werr, w2) := bufio.WriteByte w1 TAB in
        mkEncoder w2 (numColumnsPerRow e) cols werr (encoderOptions e)
  end.

Definition AppendBytes (e : Encoder) (b : bytes) : Encoder :=
  match err e with
  | Some _ => e
  | None => writeField e b
  end.

Definition AppendString (e : Encoder) (s : list byte) : Encoder :=
  AppendBytes e (of_string s).

Definition AppendValue (e : Encoder) (v : value) : Encoder :=
  match err e with
  | Some _ => e
  | None =>
      match valueToBytes v (encoderOptions e) with
      | (_, Some verr) =>
          mkEncoder (w e) (numColumnsPerRow e) (colsLeftInRow e) (Some verr)
            (encoderOptions e)
      | (b, None) => writeField e b
      end
  end.

Definition Close (e : Encoder) : option error * Encoder :=
  match err e with
  | Some x => (Some x, e)
  | None =>
      let '(ferr, w1) := bufio.Flush (w e) in
      (ferr, mkEncoder w1 (numColumnsPerRow e) (colsLeftInRow e) (err e)
               (encoderOptions e))
  end.

Definition Error (e : Encoder) : option error := err e.

(** The calls a client makes on an encoder, and their effect in sequence. *)
Inductive op : Type :=
| CallAppendBytes (b : bytes)
| CallAppendString (s : list byte)
| CallAppendValue (v : value)
| CallClose
| CallError.

Definition call (e : Encoder) (o : op) : Encoder :=
  match o with
  | CallAppendBytes b => AppendBytes e b
  | CallAppendString s => AppendString e s
  | CallAppendValue v => AppendValue e v
  | CallClose => snd (Close e)
  | CallError => e
  end.

Definition run (ops : list op) (e : Encoder) : Encoder := fold_left call ops e.

Definition is_append (o : op) : bool :=
  match o with
  | CallAppendBytes _ | CallAppendString _ | CallAppendValue _ => true
  | _ => false
  end.

(** The unescaped field an append call hands to [writeField]; a value that
    fails to convert has none and is read as nil. *)
Definition field_of (cfg : option EncoderOptions) (o : op) : bytes :=
  match o with
  | CallAppendBytes b => b
  | CallAppendString s => of_string s
  | CallAppendValue v => fst (valueToBytes v cfg)
  | _ => None
  end.

(** Every byte the encoder's writer has accepted, and the part of it that
    came after a sink that had already taken [before]. *)
Definition stream (e : Encoder) : list byte := bufio.stream (w e).

Definition produced (before : list byte) (e : Encoder) : list byte :=
  skipn (List.length before) (stream e).

(** What a run of successful [writeField] calls emits, from the counter
    alone: the terminator choice of [writeField] as a function. *)
Fixpoint frame (numColumnsPerRow colsLeftInRow : Z) (fields : list bytes)
  : list (list byte * byte) :=
  match fields with
  | [] => []
  | f :: rest =>
      let cols := int.dec colsLeftInRow in
      if cols =? 0 then
        (escapeField nil_slice f, LF) :: frame numColumnsPerRow numColumnsPerRow rest
      else
        (escapeField nil_slice f, TAB) :: frame numColumnsPerRow cols rest
  end.

(** The counter after those calls. *)
Fixpoint counter_after (numColumnsPerRow colsLeftInRow : Z) (k : nat) : Z :=
  match k with
  | O => colsLeftInRow
  | S k =>
      let cols := int.dec colsLeftInRow in
      counter_after numColumnsPerRow
        (if cols =? 0 then numColumnsPerRow else cols) k
  end.

(** The terminator [writeField] writes after a field, and the counter it
    leaves, from the counter before. *)
Definition terminator_of (e : Encoder) : byte :=
  if int.dec (colsLeftInRow e) =? 0 then LF else TAB.

Definition counter_next (e : Encoder) : Z :=
  if int.dec (colsLeftInRow e) =? 0 then numColumnsPerRow e
  else int.dec (colsLeftInRow e).

(** A writer without error over a sink that will not fail. *)
Definition healthy (b : bufio.Writer) : Prop :=
  bufio.err b = None /\ io.answers (bufio.wr b) = [].

(** The call converts its value, if it has one to convert. *)
Definition converts (cfg : option EncoderOptions) (o : op) : bool :=
  match o with
  | CallAppendValue v => is_nil (snd (valueToBytes v cfg))
  | _ => true
  end.

(** The state invariant of the data model. *)
Definition counter_in_range (e : Encoder) : Prop :=
  0 <= colsLeftInRow e <= numColumnsPerRow e.

(* ================================================================== *)
(** * The output format, as the specification describes it *)

Module spec.

(** A field on the wire with the byte that ends it. *)
Definition piece : Type := list byte * byte.

Definition flatten (ps : list piece) : list byte :=
  flat_map (fun p : piece => fst p ++ [snd p]) ps.

(** A row: its escaped fields, each ended by a single tab, but the last by
    a single newline in place of the tab. *)
Fixpoint row_pieces (fields : list bytes) : list piece :=
  match fields with
  | [] => []
  | [f] => [(escapeField nil_slice f, LF)]
  | f :: rest => (escapeField nil_slice f, TAB) :: row_pieces rest
  end.

Definition row (fields : list bytes) : list byte := flatten (row_pieces fields).

Definition rows (rs : list (list bytes)) : list byte := List.concat (map row rs).

Definition is_terminator (c : byte) : bool := Byte.eqb c TAB || Byte.eqb c LF.

(** No raw tab and no raw newline occurs in [l]. *)
Definition no_terminator (l : list byte) : bool :=
  forallb (fun c => negb (is_terminator c)) l.

(** Cut a stream at every raw tab and newline byte: the pieces with the
    byte that ended each, and what follows the last such byte. *)
Fixpoint cut (cur : list byte) (s : list byte)
  : list piece * list byte :=
  match s with
  | [] => ([], cur)
  | c :: s' =>
      if is_terminator c then
        let '(pieces, rest) := cut [] s' in ((cur, c) :: pieces, rest)
      else cut (cur ++ [c]) s'
  end.

(** A piece holds no raw terminator but the one that ends it. *)
Definition well_formed (p : piece) : Prop :=
  no_terminator (fst p) = true /\ is_terminator (snd p) = true.

(** The terminator after the [i]-th field (counted from 1) of a stream of
    rows of [n] columns. *)
Definition terminator (n : Z) (i : nat) : byte :=
  if Z.of_nat i mod n =? 0 then LF else TAB.

(** The fields numbered from [S i], each with its terminator. *)
Fixpoint numbered (n : Z) (i : nat) (fields : list bytes) : list piece :=
  match fields with
  | [] => []
  | f :: rest =>
      (escapeField nil_slice f, terminator n (S i)) :: numbered n (S i) rest
  end.

End spec.

(* ================================================================== *)
(** * The reader of the paired format *)

Module reader.

(** Modelled from the spec: the reader of the bulk-load statement is no
    part of the repository.  Under the dialect the package declares in its
    [Escaping] constant (binary character set, fields optionally enclosed
    by the double quote and escaped by the backslash), and as the page the
    source cites for [escapeField] documents it, the reader takes the two
    bytes backslash, N as NULL; in an enclosed field a backslash followed
    by 0, b, n, r, t or Z stands for the byte of the escaper's table, and
    before any other byte it is dropped and that byte taken as it is; a
    doubled quote stands for one quote; a single quote ends the field. *)
Definition unescape_byte (c : byte) : byte :=
  match c with
  | x30 => NUL
  | x62 => BS
  | x6e => LF
  | x72 => CR
  | x74 => TAB
  | x5a => SUB
  | c => c
  end.

(** Modelled from the spec: the content of an enclosed field, from the
    byte after the opening quote to the closing quote, which must be the
    last byte. *)
Fixpoint enclosed (s : list byte) : option (list byte) :=
  match s with
  | [] => None
  | x5c :: [] => None
  | x5c :: c :: s' => option_map (cons (unescape_byte c)) (enclosed s')
  | x22 :: [] => Some []
  | x22 :: x22 :: s' => option_map (cons QUOTE) (enclosed s')
  | x22 :: _ :: _ => None
  | c :: s' => option_map (cons c) (enclosed s')
  end.

(** Modelled from the spec: a whole field as the reader takes it.
    [Some None] is NULL, [Some (Some b)] the bytes [b], and [None] a field
    that is not modelled (unenclosed text, a missing closing quote). *)
Definition unescape (s : list byte) : option bytes :=
  match s with
  | [x5c; x4e] => Some None
  | x22 :: s' => option_map Some (enclosed s')
  | _ => None
  end.

End reader.


(* ================================================================== *)
(** * Sample inputs *)

Module sample.

Definition text (s : string) : list byte := list_byte_of_string s.

(** Two rows of two columns: the integer 0 and the bytes DE AD, then the
    integer 1 and a text with a tab in it. *)
Definition rows : list (list op) :=
  [ [CallAppendValue (Vint 0); CallAppendBytes (Some [xde; xad])];
    [CallAppendValue (Vint 1); CallAppendString (text "hi" ++ [TAB] ++ text "there")] ].

(** What these rows look like on the wire. *)
Definition rows_wire : list byte :=
  [QUOTE] ++ text "0" ++ [QUOTE; TAB; QUOTE; xde; xad; QUOTE; LF]
  ++ [QUOTE] ++ text "1" ++ [QUOTE; TAB; QUOTE] ++ text "hi\tthere" ++ [QUOTE; LF].

(** An encoder that has met a value it cannot convert. *)
Definition failed : Encoder :=
  AppendValue (NewEncoder (io.Buffer []) 2 None) (Vother "float64").

(** A sink that takes one write whole and then three bytes of the next,
    which it refuses as a full disk. *)
Definition disk_full : error := errorString "no space left on device".
Definition small_disk : io.Writer := io.mkWriter [] [None; Some (3%nat, disk_full)].

(** An encoder of two columns over that sink with a buffer of eight bytes. *)
Definition cramped : Encoder :=
  mkEncoder (bufio.mkWriter None [] 8 small_disk) 2 2 None None.

Definition calls : list op :=
  [ CallAppendString (text "abc"); CallAppendValue (Vbool true); CallError;
    CallAppendBytes None; CallAppendValue (Vuint8 255); CallClose;
    CallAppendString (text "lost") ].

(** 2024-02-29 12:34:56.5 UTC, and options that move it one hour east. *)
Definition leap_noon : time.Time := time.mkTime 1709210096 500000000 time.UTC.
Definition midnight : time.Time := time.mkTime 1709164800 0 time.UTC.
Definition east : option EncoderOptions :=
  Some (mkEncoderOptions (Some (time.FixedZone 3600))).

End sample.

(* ================================================================== *)
(** * Further notions for the properties of the code *)

(** No byte of [l] is one the escaper rewrites. *)
Definition plain (l : list byte) : bool :=
  forallb (fun c => negb (is_special c)) l.

(** The bytes the escaper rewrites to a backslash and a letter. *)
Definition is_control (c : byte) : bool :=
  existsb (Byte.eqb c) [NUL; BS; TAB; LF; CR; SUB].

(** Reading decimal text back, as the consumer of an integer column does:
    digits, most significant first, after an optional minus sign. *)
Module decimal.

Definition digit_value (c : byte) : option Z :=
  match c with
  | x30 => Some 0 | x31 => Some 1 | x32 => Some 2 | x33 => Some 3
  | x34 => Some 4 | x35 => Some 5 | x36 => Some 6 | x37 => Some 7
  | x38 => Some 8 | x39 => Some 9
  | _ => None
  end.

Fixpoint digits_value (acc : Z) (l : list byte) : option Z :=
  match l with
  | [] => Some acc
  | c :: l' =>
      match digit_value c with
      | Some d => digits_value (10 * acc + d) l'
      | None => None
      end
  end.

Definition read_unsigned (l : list byte) : option Z :=
  match l with
  | [] => None
  | _ => digits_value 0 l
  end.

Definition read (l : list byte) : option Z :=
  match l with
  | x2d :: ds => option_map Z.opp (read_unsigned ds)
  | _ => read_unsigned l
  end.

End decimal.

(** The integer values of the type switch: the number held, and the least
    and greatest number of the Go type. *)
Definition integer_of (v : value) : option (Z * (Z * Z)) :=
  match v with
  | Vuint8 n => Some (n, (0, 2 ^ 8 - 1))
  | Vint8 n => Some (n, (- 2 ^ 7, 2 ^ 7 - 1))
  | Vuint16 n => Some (n, (0, 2 ^ 16 - 1))
  | Vint16 n => Some (n, (- 2 ^ 15, 2 ^ 15 - 1))
  | Vuint32 n => Some (n, (0, 2 ^ 32 - 1))
  | Vint32 n => Some (n, (- 2 ^ 31, 2 ^ 31 - 1))
  | Vuint64 n => Some (n, (0, 2 ^ 64 - 1))
  | Vint64 n => Some (n, (- 2 ^ 63, 2 ^ 63 - 1))
  | Vint n => Some (n, (- 2 ^ 63, 2 ^ 63 - 1))
  | Vuint n => Some (n, (0, 2 ^ 64 - 1))
  | _ => None
  end.

(** The values of the type switch that are a nil slice or the nil
    interface, and the values that reach the switch as such: themselves,
    or what their [Value] method returned without error. *)
Definition nil_like (v : value) : bool :=
  match v with
  | Vnil | Vbytes None | VRawMessage None => true
  | _ => false
  end.

Definition is_null (v : value) : bool :=
  match v with
  | VValuer _ out None => nil_like out
  | VValuer _ _ (Some _) => false
  | v => nil_like v
  end.

(** Reading a whole stream back into rows of fields. *)
Module table.

(** Modelled from the spec: the reader of the bulk-load statement is no
    part of the repository.  With fields terminated by the tab and lines
    by the newline, it takes the escaped fields between the raw
    terminators, reads each as [reader.unescape] does, and ends a row at
    each newline.  [cur] holds the fields of the row being read; a row
    left without its newline, or a field that does not read, fails. *)
Fixpoint group (cur : list bytes) (ps : list spec.piece)
  : option (list (list bytes)) :=
  match ps with
  | [] => match cur with [] => Some [] | _ => None end
  | (f, t) :: ps' =>
      match reader.unescape f with
      | None => None
      | Some b =>
          if Byte.eqb t LF then option_map (cons (cur ++ [b])) (group [] ps')
          else group (cur ++ [b]) ps'
      end
  end.

(** Modelled from the spec: the rows of a stream; bytes after the last
    terminator fail. *)
Definition read (s : list byte) : option (list (list bytes)) :=
  let '(ps, rest) := spec.cut [] s in
  match rest with
  | [] => group [] ps
  | _ => None
  end.

(** A row of the table of the round-trip test: an [INT NOT NULL] and a
    [BLOB NOT NULL] column. *)
Definition read_row (r : list bytes) : option (Z * list byte) :=
  match r with
  | [Some id; Some data] => option_map (fun i => (i, data)) (decimal.read id)
  | _ => None
  end.

Fixpoint read_rows (rs : list (list bytes)) : option (list (Z * list byte)) :=
  match rs with
  | [] => Some []
  | r :: rs' =>
      match read_row r, read_rows rs' with
      | Some x, Some xs => Some (x :: xs)
      | _, _ => None
      end
  end.

Definition read_table (s : list byte) : option (list (Z * list byte)) :=
  match read s with
  | Some rs => read_rows rs
  | None => None
  end.

End table.

(** [TestRoundtrip]: the calls its loop makes for [dataRows], counting
    rows from [i], and the rows it expects to read back ordered by id. *)
Fixpoint test_calls (i : Z) (dataRows : list (list byte)) : list (list op) :=
  match dataRows with
  | [] => []
  | row :: rest =>
      [CallAppendValue (Vint i); CallAppendBytes (Some row)]
        :: test_calls (i + 1) rest
  end.

Fixpoint test_rows (i : Z) (dataRows : list (list byte)) : list (Z * list byte) :=
  match dataRows with
  | [] => []
  | row :: rest => (i, row) :: test_rows (i + 1) rest
  end.

(** The values the type switch turns into text of its own making:
    integers, booleans and times. *)
Definition is_scalar (v : value) : bool :=
  match v with
  | Vuint8 _ | Vint8 _ | Vuint16 _ | Vint16 _ | Vuint32 _ | Vint32 _
  | Vuint64 _ | Vint64 _ | Vint _ | Vuint _ | Vbool _ | VTime _ => true
  | _ => false
  end.

(** An encoder whose writer holds a failure that [Close] met. *)
Definition closed_on_full_disk : Encoder :=
  snd (Close (AppendString
                (NewEncoder (io.mkWriter [] [Some (2%nat, sample.disk_full)]) 2 None)
                (sample.text "abc"))).
(* ================================================================== *)
(** * Properties of the field escaper *)

(** Split a conjunction into its parts, introducing nothing. *)
Ltac splits := repeat match goal with |- _ /\ _ => split end.

Section Escaper.

(** The loop of [escapeField] appends, byte after byte, the entry of the
    table. *)
Lemma escape_loop (data : list byte) :
  forall acc,
    fold_left
      (fun appendTo c =>
         match c with
         | x00 => appendTo ++ [x5c; x30]
         | x08 => appendTo ++ [x5c; x62]
         | x0a => appendTo ++ [x5c; x6e]
         | x0d => appendTo ++ [x5c; x72]
         | x09 => appendTo ++ [x5c; x74]
         | x1a => appendTo ++ [x5c; x5a]
         | x5c => appendTo ++ [x5c; x5c]
         | x22 => appendTo ++ [x5c; x22]
         | c => appendTo ++ [c]
         end)
      data acc
    = acc ++ flat_map spec_escape_byte data.
Proof.
  induction data as [|c data IH]; intros acc; simpl.
  - now rewrite app_nil_r.
  - rewrite IH. destruct c; simpl; now rewrite <- app_assoc.
Qed.

(** What [escapeField] returns for a non-nil slice, whatever [appendTo]. *)
Lemma escapeField_present (appendTo : slice) (data : list byte) :
  escapeField appendTo (Some data)
  = (if (cap appendTo <? List.length data + 2)%nat then [] else elems appendTo)
      ++ spec_escape data.
Proof.
  unfold escapeField, spec_escape. rewrite escape_loop.
  now rewrite <- !app_assoc.
Qed.

(** With nothing in [appendTo] its capacity is irrelevant: both call sites
    ([bufio.AvailableBuffer] and nil) produce the same bytes. *)
Lemma escapeField_empty (c : nat) (b : bytes) :
  escapeField (mkslice [] c) b = escapeField nil_slice b.
Proof.
  destruct b as [data|]; [|reflexivity].
  rewrite !escapeField_present. simpl.
  now destruct (c <? _)%nat, (0 <? _)%nat.
Qed.

Lemma escapeField_AvailableBuffer (b : bufio.Writer) (data : bytes) :
  escapeField (bufio.AvailableBuffer b) data = escapeField nil_slice data.
Proof. apply escapeField_empty. Qed.

Lemma escapeField_nil_slice (data : list byte) :
  escapeField nil_slice (Some data) = spec_escape data.
Proof. rewrite escapeField_present. simpl. now destruct (0 <? _)%nat. Qed.

Lemma spec_escape_byte_plain (c : byte) :
  is_special c = false -> spec_escape_byte c = [c].
Proof. now destruct c. Qed.

Lemma spec_escape_byte_no_terminator (c : byte) :
  spec.no_terminator (spec_escape_byte c) = true.
Proof. now destruct c. Qed.

Lemma no_terminator_app (l1 l2 : list byte) :
  spec.no_terminator (l1 ++ l2)
  = spec.no_terminator l1 && spec.no_terminator l2.
Proof. apply forallb_app. Qed.

Lemma flat_map_no_terminator (data : list byte) :
  spec.no_terminator (flat_map spec_escape_byte data) = true.
Proof.
  induction data as [|c data IH]; [reflexivity|]. simpl.
  now rewrite no_terminator_app, spec_escape_byte_no_terminator, IH.
Qed.

Lemma escapeField_no_terminator (b : bytes) :
  spec.no_terminator (escapeField nil_slice b) = true.
Proof.
  destruct b as [data|]; [|reflexivity].
  rewrite escapeField_nil_slice. unfold spec_escape.
  change (QUOTE :: ?l) with ([QUOTE] ++ l).
  now rewrite !no_terminator_app, flat_map_no_terminator.
Qed.

Lemma no_terminator_firstn (k : nat) (l : list byte) :
  spec.no_terminator l = true -> spec.no_terminator (firstn k l) = true.
Proof.
  revert k. induction l as [|c l IH]; intros k H; [now destruct k|].
  destruct k as [|k]; [reflexivity|]. cbn [firstn]. simpl in H |- *.
  apply andb_true_iff in H as [Hc Hl]. now rewrite Hc, IH.
Qed.

Lemma count_app (c : byte) (l1 l2 : list byte) :
  count c (l1 ++ l2) = (count c l1 + count c l2)%nat.
Proof. unfold count. now rewrite filter_app, length_app. Qed.

Lemma no_terminator_count (l : list byte) :
  spec.no_terminator l = true -> count TAB l = 0%nat /\ count LF l = 0%nat.
Proof.
  unfold count. induction l as [|c l IH]; [now split|]. simpl.
  intros H. apply andb_true_iff in H as [Hc Hl]. destruct (IH Hl) as [IHt IHl].
  unfold spec.is_terminator in Hc. apply negb_true_iff, orb_false_iff in Hc.
  destruct Hc as [Ht Hn].
  rewrite Ht, Hn. now split.
Qed.

Lemma count_piece (f : bytes) (t : byte) (rest : list byte) :
  count LF ((escapeField nil_slice f ++ [t]) ++ rest)
  = (count LF [t] + count LF rest)%nat
  /\ count TAB ((escapeField nil_slice f ++ [t]) ++ rest)
     = (count TAB [t] + count TAB rest)%nat.
Proof.
  destruct (no_terminator_count _ (escapeField_no_terminator f)) as [Ht Hl].
  now rewrite !count_app, Ht, Hl.
Qed.

(** The reader undoes the escaper's table on an enclosed field. *)
Lemma enclosed_escape (data : list byte) :
  reader.enclosed (flat_map spec_escape_byte data ++ [QUOTE]) = Some data.
Proof.
  induction data as [|c data IH]; [reflexivity|].
  destruct c; simpl; simpl in IH; rewrite IH; reflexivity.
Qed.

End Escaper.

(* ================================================================== *)
(** * Properties of the sink model *)

Section Sink.

Lemma io_Write_spec (s : io.Writer) (p : list byte) :
  forall n e s', io.Write s p = ((n, e), s') ->
    io.taken s' = io.taken s ++ firstn n p
    /\ (n <= List.length p)%nat
    /\ (e = None -> n = List.length p).
Proof.
  intros n e s'. unfold io.Write.
  destruct (io.answers s) as [|[[k x]|] rest]; intros H; inversion H; subst; simpl.
  - rewrite firstn_all. auto.
  - repeat split; [apply Nat.le_min_r | discriminate].
  - rewrite firstn_all. auto.
Qed.

(** [Flush] moves bytes from the buffer to the sink: the accepted stream
    is the same, the error returned is the one now latched, and after a
    success nothing is buffered. *)
Lemma Flush_spec (b : bufio.Writer) :
  forall e b', bufio.Flush b = (e, b') ->
    bufio.stream b' = bufio.stream b
    /\ bufio.err b' = e
    /\ bufio.size b' = bufio.size b
    /\ (e = None -> bufio.buf b' = [] /\ io.taken (bufio.wr b') = bufio.stream b)
    /\ (bufio.err b <> None -> b' = b).
Proof.
  intros e b'. unfold bufio.Flush, bufio.stream.
  destruct (bufio.err b) as [x|] eqn:Hx.
  { intros H; inversion H; subst. repeat split; auto; try discriminate. }
  unfold bufio.Buffered.
  destruct (List.length (bufio.buf b) =? 0)%nat eqn:Hlen.
  { intros H; inversion H; subst. apply Nat.eqb_eq, length_zero_iff_nil in Hlen.
    rewrite Hlen, app_nil_r. repeat split; auto. }
  destruct (io.Write (bufio.wr b) (bufio.buf b)) as [[n we] s'] eqn:Hw.
  destruct (io_Write_spec _ _ _ _ _ Hw) as (Ht & Hn & Hall).
  destruct we as [x|]; simpl.
  - rewrite andb_false_r. intros H; inversion H; subst; simpl.
    rewrite Ht, <- app_assoc, firstn_skipn.
    repeat split; auto; try discriminate. intros F; now elim F.
  - rewrite (Hall eq_refl), Nat.ltb_irrefl. simpl.
    intros H; inversion H; subst; simpl.
    rewrite Ht, (Hall eq_refl), firstn_all, app_nil_r.
    repeat split; auto. intros F; now elim F.
Qed.

Lemma Write_loop_unfold (fuel : nat) (b : bufio.Writer) (p : list byte) (nn : nat) :
  bufio.Write_loop fuel b p nn =
  if bufio.loop_cond b p then
    match fuel with
    | O => (b, p, nn)
    | S fuel =>
        if (bufio.Buffered b =? 0)%nat then
          let '((n, werr), wr') := io.Write (bufio.wr b) p in
          bufio.Write_loop fuel
            (bufio.mkWriter werr (bufio.buf b) (bufio.size b) wr')
            (skipn n p) (nn + n)
        else
          let n := Nat.min (bufio.Available b) (List.length p) in
          let b1 := bufio.mkWriter (bufio.err b) (bufio.buf b ++ firstn n p)
                      (bufio.size b) (bufio.wr b) in
          bufio.Write_loop fuel (snd (bufio.Flush b1)) (skipn n p) (nn + n)
    end
  else (b, p, nn).
Proof. destruct fuel; reflexivity. Qed.

(** Whatever the fuel, the loop hands on a prefix of [p], keeps the rest,
    and leaves the buffer size alone. *)
Lemma Write_loop_spec (fuel : nat) :
  forall b p nn b' p' nn', bufio.Write_loop fuel b p nn = (b', p', nn') ->
    exists q, p = q ++ p'
      /\ bufio.stream b' = bufio.stream b ++ q
      /\ bufio.size b' = bufio.size b
      /\ (bufio.err b <> None -> b' = b).
Proof.
  induction fuel as [|fuel IH]; intros b p nn b' p' nn'; rewrite Write_loop_unfold.
  - intros H. exists []. assert (E : (b, p, nn) = (b', p', nn')) by (now destruct (bufio.loop_cond b p)).
    inversion E; subst. rewrite app_nil_r. auto.
  - destruct (bufio.loop_cond b p) eqn:Hc.
    2:{ intros H; inversion H; subst. exists []. rewrite app_nil_r. auto. }
    assert (He : bufio.err b = None).
    { unfold bufio.loop_cond in Hc. apply andb_true_iff in Hc as [_ Hc].
      now destruct (bufio.err b). }
    destruct (bufio.Buffered b =? 0)%nat eqn:Hb.
    + destruct (io.Write (bufio.wr b) p) as [[n we] s'] eqn:Hw.
      destruct (io_Write_spec _ _ _ _ _ Hw) as (Ht & Hn & Hall).
      intros H. apply IH in H as (q & Hq & Hs & Hz & _).
      exists (firstn n p ++ q). repeat split.
      * rewrite <- app_assoc, <- Hq. symmetry. apply firstn_skipn.
      * rewrite Hs. unfold bufio.stream. simpl. rewrite Ht.
        apply Nat.eqb_eq, length_zero_iff_nil in Hb. rewrite Hb, !app_nil_r.
        now rewrite app_assoc.
      * exact Hz.
      * intros F. now elim F.
    + cbv zeta. set (n := Nat.min _ _).
      set (b1 := bufio.mkWriter _ _ _ _).
      destruct (bufio.Flush b1) as [fe b2] eqn:Hf.
      destruct (Flush_spec _ _ _ Hf) as (Hs2 & _ & Hz2 & _). simpl.
      intros H. apply IH in H as (q & Hq & Hs & Hz & _).
      exists (firstn n p ++ q). repeat split.
      * rewrite <- app_assoc, <- Hq. symmetry. apply firstn_skipn.
      * rewrite Hs, Hs2. unfold bufio.stream, b1. simpl.
        now rewrite <- !app_assoc.
      * now rewrite Hz, Hz2.
      * intros F. now elim F.
Qed.

Lemma direct_done (s : io.Writer) (p : list byte) (bf : list byte) (sz : nat) :
  forall n we s', io.Write s p = ((n, we), s') ->
    bufio.loop_cond (bufio.mkWriter we bf sz s') (skipn n p) = false.
Proof.
  intros n we s' Hw. destruct (io_Write_spec _ _ _ _ _ Hw) as (_ & _ & Hall).
  unfold bufio.loop_cond. destruct we as [x|]; simpl.
  - apply andb_false_r.
  - rewrite (Hall eq_refl), skipn_all. simpl. reflexivity.
Qed.

(** Two passes end the loop of [Write]: its condition is false after them. *)
Lemma Write_loop_done (b : bufio.Writer) (p : list byte) (nn : nat) :
  forall b' p' nn', bufio.Write_loop 2 b p nn = (b', p', nn') ->
    bufio.loop_cond b' p' = false.
Proof.
  intros b' p' nn'. rewrite Write_loop_unfold.
  destruct (bufio.loop_cond b p) eqn:Hc.
  2:{ intros H; inversion H; subst. exact Hc. }
  destruct (bufio.Buffered b =? 0)%nat.
  - destruct (io.Write (bufio.wr b) p) as [[n we] s'] eqn:Hw.
    rewrite Write_loop_unfold, (direct_done _ _ _ _ _ _ _ Hw).
    intros H; inversion H; subst. eapply direct_done, Hw.
  - cbv zeta. set (n := Nat.min _ _). set (b1 := bufio.mkWriter _ _ _ _).
    destruct (bufio.Flush b1) as [fe b2] eqn:Hf. cbn [snd].
    destruct (Flush_spec _ _ _ Hf) as (_ & He & _ & Hok & _).
    rewrite Write_loop_unfold.
    destruct (bufio.loop_cond b2 (skipn n p)) eqn:Hc2.
    2:{ intros H; inversion H; subst. exact Hc2. }
    assert (Hnil : fe = None).
    { unfold bufio.loop_cond in Hc2. apply andb_true_iff in Hc2 as [_ Hc2].
      rewrite He in Hc2. now destruct fe. }
    destruct (Hok Hnil) as [Hbuf _]. unfold bufio.Buffered. rewrite Hbuf. simpl.
    destruct (io.Write (bufio.wr b2) (skipn n p)) as [[n3 we] s3] eqn:Hw.
    rewrite (direct_done _ _ _ _ _ _ _ Hw).
    intros H; inversion H; subst. eapply direct_done, Hw.
Qed.

(** Once the condition of the loop is false, more fuel changes nothing. *)
Lemma Write_loop_stable (fuel : nat) :
  forall b p nn b' p' nn', bufio.Write_loop fuel b p nn = (b', p', nn') ->
    bufio.loop_cond b' p' = false ->
    forall k, bufio.Write_loop (fuel + k) b p nn = (b', p', nn').
Proof.
  induction fuel as [|fuel IH]; intros b p nn b' p' nn' H Hc k;
    rewrite Write_loop_unfold in H; rewrite Write_loop_unfold.
  - assert (E : (b, p, nn) = (b', p', nn')) by (now destruct (bufio.loop_cond b p)).
    inversion E; subst. now rewrite Hc.
  - simpl. destruct (bufio.loop_cond b p); [|exact H].
    destruct (bufio.Buffered b =? 0)%nat.
    + destruct (io.Write (bufio.wr b) p) as [[n we] s']. now apply IH.
    + cbv zeta in *. now apply IH.
Qed.

(** The fuel of [bufio.Write] is enough: the loop ends within it, and the
    same result comes out with any more. *)
Lemma Write_loop_fuel (k : nat) (b : bufio.Writer) (p : list byte) (nn : nat) :
  bufio.Write_loop (2 + k) b p nn = bufio.Write_loop 2 b p nn
  /\ bufio.loop_cond (fst (fst (bufio.Write_loop 2 b p nn)))
       (snd (fst (bufio.Write_loop 2 b p nn))) = false.
Proof.
  destruct (bufio.Write_loop 2 b p nn) as [[b' p'] nn'] eqn:H.
  pose proof (Write_loop_done _ _ _ _ _ _ H) as Hc. split; [|exact Hc].
  now apply Write_loop_stable.
Qed.

(** [Write]: the error returned is the one latched; the stream grows by a
    prefix of [p], by all of [p] on success; a writer with a latched error
    is left as it is. *)
Lemma Write_spec (b : bufio.Writer) (p : list byte) :
  forall nn e b', bufio.Write b p = ((nn, e), b') ->
    bufio.err b' = e
    /\ bufio.size b' = bufio.size b
    /\ (exists k, bufio.stream b' = bufio.stream b ++ firstn k p)
    /\ (e = None -> bufio.stream b' = bufio.stream b ++ p)
    /\ (bufio.err b <> None -> b' = b).
Proof.
  intros nn e b'. unfold bufio.Write.
  destruct (bufio.Write_loop 2 b p 0) as [[b1 p1] n1] eqn:HL.
  pose proof (Write_loop_done _ _ _ _ _ _ HL) as Hc.
  destruct (Write_loop_spec _ _ _ _ _ _ _ HL) as (q & Hq & Hs & Hz & Hsame).
  destruct (bufio.err b1) as [x|] eqn:Hx; intros H; inversion H; subst.
  - repeat split; auto; try discriminate.
    exists (List.length q). now rewrite firstn_app, firstn_all, Nat.sub_diag, app_nil_r.
  - unfold bufio.loop_cond in Hc. rewrite Hx, andb_true_r in Hc.
    apply Nat.ltb_ge in Hc. rewrite (Nat.min_r _ _ Hc), firstn_all.
    assert (Hall : bufio.stream
                     (bufio.mkWriter None (bufio.buf b1 ++ p1) (bufio.size b1) (bufio.wr b1))
                   = bufio.stream b ++ q ++ p1).
    { unfold bufio.stream in *. simpl. now rewrite app_assoc, Hs, <- app_assoc. }
    simpl. repeat split; auto.
    + exists (List.length (q ++ p1)). now rewrite firstn_all.
    + intros F. exfalso. apply F. now rewrite <- (Hsame F).
Qed.

Lemma WriteByte_spec (b : bufio.Writer) (c : byte) :
  forall e b', bufio.WriteByte b c = (e, b') ->
    bufio.err b' = e
    /\ bufio.size b' = bufio.size b
    /\ (e = None -> bufio.stream b' = bufio.stream b ++ [c])
    /\ (e <> None -> bufio.stream b' = bufio.stream b)
    /\ (bufio.err b <> None -> b' = b).
Proof.
  intros e b'. unfold bufio.WriteByte.
  destruct (bufio.err b) as [x|] eqn:Hx.
  { intros H; inversion H; subst. repeat split; auto; discriminate. }
  assert (Hput : forall b0, bufio.stream (bufio.put b0 c) = bufio.stream b0 ++ [c]).
  { intros b0. unfold bufio.stream, bufio.put. simpl. now rewrite app_assoc. }
  destruct (bufio.Available b <=? 0)%nat.
  - destruct (bufio.Flush b) as [fe b1] eqn:Hf.
    destruct (Flush_spec _ _ _ Hf) as (Hs & He & Hz & _ & _).
    destruct fe as [y|]; intros H; inversion H; subst; simpl.
    + repeat split; auto; congruence.
    + rewrite Hput, Hs. repeat split; auto; intros F; now elim F.
  - intros H; inversion H; subst; simpl. rewrite Hput.
    repeat split; auto; intros F; now elim F.
Qed.

(** ** A sink that does not fail *)

Lemma Flush_healthy (b : bufio.Writer) :
  healthy b -> fst (bufio.Flush b) = None /\ healthy (snd (bufio.Flush b)).
Proof.
  intros [He Ha]. unfold bufio.Flush, healthy. rewrite He.
  destruct (bufio.Buffered b =? 0)%nat; [simpl; auto|].
  unfold io.Write. rewrite Ha. rewrite Nat.ltb_irrefl. simpl. auto.
Qed.

Lemma Write_loop_healthy (fuel : nat) :
  forall b p nn, healthy b -> healthy (fst (fst (bufio.Write_loop fuel b p nn))).
Proof.
  induction fuel as [|fuel IH]; intros b p nn H; rewrite Write_loop_unfold.
  - now destruct (bufio.loop_cond b p).
  - destruct (bufio.loop_cond b p); [|exact H].
    destruct (bufio.Buffered b =? 0)%nat.
    + destruct H as [He Ha]. unfold io.Write. rewrite Ha. apply IH. now split.
    + cbv zeta. apply IH, Flush_healthy. destruct H as [He Ha]. now split.
Qed.

Lemma Write_healthy (b : bufio.Writer) (p : list byte) :
  healthy b -> snd (fst (bufio.Write b p)) = None /\ healthy (snd (bufio.Write b p)).
Proof.
  intros H. unfold bufio.Write.
  pose proof (Write_loop_healthy 2 b p 0 H) as H1.
  destruct (bufio.Write_loop 2 b p 0) as [[b1 p1] n1]. destruct H1 as [He Ha].
  simpl in He, Ha. rewrite He. simpl. unfold healthy. auto.
Qed.

Lemma WriteByte_healthy (b : bufio.Writer) (c : byte) :
  healthy b -> fst (bufio.WriteByte b c) = None /\ healthy (snd (bufio.WriteByte b c)).
Proof.
  intros H. unfold bufio.WriteByte. destruct H as [He Ha]. rewrite He.
  destruct (bufio.Available b <=? 0)%nat; [|simpl; unfold healthy; auto].
  destruct (Flush_healthy b (conj He Ha)) as [Hf Hh].
  destruct (bufio.Flush b) as [fe b1]. simpl in Hf, Hh. subst fe.
  simpl. destruct Hh. unfold healthy. auto.
Qed.

End Sink.

(* ================================================================== *)
(** * Properties of the output format *)

Section Format.

Lemma flatten_app (ps qs : list spec.piece) :
  spec.flatten (ps ++ qs) = spec.flatten ps ++ spec.flatten qs.
Proof. apply flat_map_app. Qed.

Lemma flatten_rows (rs : list (list bytes)) :
  spec.flatten (List.concat (map spec.row_pieces rs)) = spec.rows rs.
Proof.
  unfold spec.rows. induction rs as [|r rs IH]; [reflexivity|].
  cbn [List.concat map]. now rewrite flatten_app, IH.
Qed.

Lemma count_row (r : list bytes) :
  r <> [] ->
  count LF (spec.row r) = 1%nat
  /\ count TAB (spec.row r) = (List.length r - 1)%nat.
Proof.
  unfold spec.row. induction r as [|f r IH]; intros Hr; [now elim Hr|].
  destruct r as [|g r].
  - change (spec.flatten (spec.row_pieces [f]))
      with ((escapeField nil_slice f ++ [LF]) ++ []).
    destruct (count_piece f LF []) as [H1 H2]. rewrite H1, H2. now split.
  - assert (Hg : g :: r <> []) by discriminate.
    destruct (IH Hg) as [IH1 IH2].
    change (spec.flatten (spec.row_pieces (f :: g :: r)))
      with ((escapeField nil_slice f ++ [TAB]) ++ spec.flatten (spec.row_pieces (g :: r))).
    destruct (count_piece f TAB (spec.flatten (spec.row_pieces (g :: r)))) as [H1 H2].
    rewrite H1, H2, IH1, IH2. cbn [List.length]. split; [reflexivity|].
    change (count TAB [TAB]) with 1%nat. lia.
Qed.

Lemma count_rows (n : Z) (Hn : 0 < n) (rs : list (list bytes)) :
  Forall (fun r => Z.of_nat (List.length r) = n) rs ->
  count LF (spec.rows rs) = List.length rs
  /\ Z.of_nat (count TAB (spec.rows rs))
     = n * Z.of_nat (List.length rs) - Z.of_nat (List.length rs).
Proof.
  unfold spec.rows. induction 1 as [|r rs Hr _ [IH1 IH2]]; [split; [reflexivity|simpl; lia]|].
  cbn [List.concat map List.length]. rewrite !count_app, IH1.
  assert (Hne : r <> []) by (intros ->; simpl in Hr; lia).
  destruct (count_row r Hne) as [H1 H2]. rewrite H1, H2. split; [reflexivity|].
  rewrite Nat2Z.inj_add, IH2. lia.
Qed.

Lemma cut_field (f : list byte) :
  forall cur s, spec.no_terminator f = true ->
    spec.cut cur (f ++ s) = spec.cut (cur ++ f) s.
Proof.
  induction f as [|c f IH]; intros cur s H.
  - now rewrite app_nil_r.
  - simpl in H. apply andb_true_iff in H as [Hc Hf]. apply negb_true_iff in Hc.
    cbn [app spec.cut]. rewrite Hc, IH by exact Hf. now rewrite <- app_assoc.
Qed.

Lemma cut_flatten (ps : list spec.piece) :
  Forall spec.well_formed ps -> spec.cut [] (spec.flatten ps) = (ps, []).
Proof.
  induction 1 as [|[f t] ps [Hf Ht] _ IH]; [reflexivity|].
  cbn [spec.flatten flat_map fst snd] in *.
  rewrite <- app_assoc, cut_field by exact Hf.
  cbn [app spec.cut]. rewrite Ht. unfold spec.flatten in IH. now rewrite IH.
Qed.

Lemma cut_flatten_rest (ps : list spec.piece) (rest : list byte) :
  Forall spec.well_formed ps -> spec.no_terminator rest = true ->
  spec.cut [] (spec.flatten ps ++ rest) = (ps, rest).
Proof.
  intros Hps Hrest. induction Hps as [|[f t] ps [Hf Ht] _ IH].
  - cbn [spec.flatten flat_map app]. rewrite <- (app_nil_r rest) at 1.
    now rewrite cut_field.
  - cbn [spec.flatten flat_map fst snd] in *.
    rewrite <- !app_assoc, cut_field by exact Hf.
    cbn [app spec.cut]. rewrite Ht. unfold spec.flatten in IH. now rewrite IH.
Qed.

Lemma numbered_fst (n : Z) (fields : list bytes) :
  forall i, map fst (spec.numbered n i fields) = map (escapeField nil_slice) fields.
Proof.
  induction fields as [|f fs IH]; intros i; [reflexivity|].
  cbn [spec.numbered map fst]. now rewrite IH.
Qed.

Lemma numbered_length (n : Z) (fields : list bytes) :
  forall i, List.length (spec.numbered n i fields) = List.length fields.
Proof.
  induction fields as [|f fs IH]; intros i; [reflexivity|].
  cbn [spec.numbered List.length]. now rewrite IH.
Qed.

End Format.

(* ================================================================== *)
(** * Properties of the row encoder *)

Section RowEncoder.

Lemma int_dec_in_range (x : Z) :
  - int.max <= x <= int.max -> int.dec x = x - 1.
Proof.
  unfold int.dec, int.wrap, int.max. intros H.
  rewrite Z.mod_small; lia.
Qed.

Lemma stream_NewEncoder (sink : io.Writer) (n : Z) (cfg : option EncoderOptions) :
  stream (NewEncoder sink n cfg) = io.taken sink.
Proof. unfold stream, bufio.stream. simpl. apply app_nil_r. Qed.

Lemma produced_app (before out : list byte) (e : Encoder) :
  stream e = before ++ out -> produced before e = out.
Proof.
  unfold produced. intros ->. rewrite skipn_app, skipn_all, Nat.sub_diag.
  reflexivity.
Qed.

Lemma writeField_spec (e : Encoder) (b : bytes) :
  numColumnsPerRow (writeField e b) = numColumnsPerRow e
  /\ encoderOptions (writeField e b) = encoderOptions e
  /\ (colsLeftInRow (writeField e b) = colsLeftInRow e
      \/ colsLeftInRow (writeField e b) = counter_next e)
  /\ (err (writeField e b) = None ->
      stream (writeField e b)
      = stream e ++ escapeField nil_slice b ++ [terminator_of e]
      /\ colsLeftInRow (writeField e b) = counter_next e).
Proof.
  unfold writeField, stream, terminator_of, counter_next.
  rewrite escapeField_AvailableBuffer.
  destruct (bufio.Write (w e) (escapeField nil_slice b)) as [[nn we] w1] eqn:Hw.
  destruct (Write_spec _ _ _ _ _ Hw) as (_ & _ & _ & Hall & _).
  destruct we as [x|]; simpl.
  { repeat split; auto; discriminate. }
  destruct (int.dec (colsLeftInRow e) =? 0).
  - destruct (bufio.WriteByte w1 LF) as [be w2] eqn:Hb.
    destruct (WriteByte_spec _ _ _ _ Hb) as (_ & _ & Hok & _). simpl.
    destruct be as [y|]; [repeat split; auto; discriminate|].
    rewrite (Hok eq_refl), (Hall eq_refl), <- app_assoc. repeat split; auto.
  - destruct (bufio.WriteByte w1 TAB) as [be w2] eqn:Hb.
    destruct (WriteByte_spec _ _ _ _ Hb) as (_ & _ & Hok & _). simpl.
    destruct be as [y|]; [repeat split; auto; discriminate|].
    rewrite (Hok eq_refl), (Hall eq_refl), <- app_assoc. repeat split; auto.
Qed.

Lemma writeField_options (e : Encoder) (b : bytes) :
  encoderOptions (writeField e b) = encoderOptions e.
Proof. now destruct (writeField_spec e b) as (_ & H & _). Qed.

(** After [writeField] the latched error is the error of the writer. *)
Lemma writeField_err (e : Encoder) (b : bytes) :
  err (writeField e b) = bufio.err (w (writeField e b)).
Proof.
  unfold writeField.
  destruct (bufio.Write (w e) _) as [[nn we] w1] eqn:Hw.
  destruct (Write_spec _ _ _ _ _ Hw) as (He & _).
  destruct we as [x|]; [now simpl|].
  destruct (int.dec (colsLeftInRow e) =? 0).
  - destruct (bufio.WriteByte w1 LF) as [be w2] eqn:Hb.
    now destruct (WriteByte_spec _ _ _ _ Hb) as (Hbe & _).
  - destruct (bufio.WriteByte w1 TAB) as [be w2] eqn:Hb.
    now destruct (WriteByte_spec _ _ _ _ Hb) as (Hbe & _).
Qed.

(** The counter after [writeField], by the outcome of writing the field. *)
Lemma writeField_counter (e : Encoder) (b : bytes) :
  match snd (fst (bufio.Write (w e) (escapeField (bufio.AvailableBuffer (w e)) b))) with
  | None => colsLeftInRow (writeField e b) = counter_next e
  | Some x =>
      colsLeftInRow (writeField e b) = colsLeftInRow e
      /\ err (writeField e b) = Some x
  end.
Proof.
  unfold writeField, counter_next.
  destruct (bufio.Write (w e) _) as [[nn [x|]] w1]; cbn [fst snd]; [now split|].
  destruct (int.dec (colsLeftInRow e) =? 0).
  - now destruct (bufio.WriteByte w1 LF).
  - now destruct (bufio.WriteByte w1 TAB).
Qed.

(** With an error latched every call leaves the encoder as it is. *)
Lemma call_latched (e : Encoder) (o : op) :
  err e <> None -> call e o = e.
Proof.
  intros H. destruct o; simpl; unfold AppendString, AppendBytes, AppendValue, Close;
    destruct (err e); try reflexivity; now elim H.
Qed.

Lemma run_latched (ops : list op) (e : Encoder) :
  err e <> None -> run ops e = e.
Proof.
  intros H. unfold run. induction ops as [|o ops IH]; [reflexivity|].
  simpl. now rewrite call_latched.
Qed.

Lemma run_app (ops1 ops2 : list op) (e : Encoder) :
  run (ops1 ++ ops2) e = run ops2 (run ops1 e).
Proof. apply fold_left_app. Qed.

(** A successful append ran [writeField] on an encoder without error. *)
Lemma append_ok (e : Encoder) (o : op) :
  is_append o = true -> err (call e o) = None ->
  err e = None
  /\ call e o = writeField e (field_of (encoderOptions e) o).
Proof.
  destruct o; try discriminate; intros _; simpl;
    unfold AppendString, AppendBytes, AppendValue.
  - destruct (err e) eqn:E; [congruence|auto].
  - destruct (err e) eqn:E; [congruence|auto].
  - destruct (err e) eqn:E; [congruence|].
    destruct (valueToBytes v (encoderOptions e)) as [b [x|]]; [discriminate|auto].
Qed.

Lemma frame_well_formed (n : Z) (fields : list bytes) :
  forall c, Forall spec.well_formed (frame n c fields).
Proof.
  induction fields as [|f fields IH]; intros c; [constructor|].
  cbn [frame]. destruct (int.dec c =? 0); constructor; auto;
    split; cbn [fst snd]; auto using escapeField_no_terminator.
Qed.

Lemma run_appends (ops : list op) :
  forall e, forallb is_append ops = true -> err (run ops e) = None ->
    err e = None
    /\ numColumnsPerRow (run ops e) = numColumnsPerRow e
    /\ encoderOptions (run ops e) = encoderOptions e
    /\ stream (run ops e)
       = stream e
           ++ spec.flatten
                (frame (numColumnsPerRow e) (colsLeftInRow e)
                   (map (field_of (encoderOptions e)) ops))
    /\ colsLeftInRow (run ops e)
       = counter_after (numColumnsPerRow e) (colsLeftInRow e) (List.length ops).
Proof.
  induction ops as [|o ops IH]; intros e Happ Herr.
  - simpl in *. rewrite app_nil_r. auto.
  - simpl in Happ. apply andb_true_iff in Happ as [Ho Hops].
    change (run (o :: ops) e) with (run ops (call e o)) in *.
    destruct (IH _ Hops Herr) as (He1 & Hn & Hcfg & Hs & Hc).
    destruct (append_ok _ _ Ho He1) as (He & Hcall).
    destruct (writeField_spec e (field_of (encoderOptions e) o))
      as (Hn1 & Hcfg1 & _ & Hok).
    rewrite <- Hcall in Hn1, Hcfg1, Hok. destruct (Hok He1) as (Hs1 & Hc1).
    rewrite Hn, Hcfg, Hs, Hc, Hn1, Hcfg1, Hs1, Hc1.
    unfold terminator_of, counter_next. simpl.
    destruct (int.dec (colsLeftInRow e) =? 0); simpl;
      rewrite <- !app_assoc; auto.
Qed.

Lemma Forall_rows (n : Z) (rs : list (list op)) (cfg : option EncoderOptions) :
  Forall (fun r => Z.of_nat (List.length r) = n /\ forallb is_append r = true) rs ->
  Forall (fun r => Z.of_nat (List.length r) = n) (map (map (field_of cfg)) rs)
  /\ forallb is_append (List.concat rs) = true.
Proof.
  induction 1 as [|r rs [Hl Ha] _ [IH1 IH2]]; [split; [constructor|reflexivity]|].
  split.
  - constructor; [now rewrite length_map|exact IH1].
  - cbn [List.concat]. now rewrite forallb_app, Ha, IH2.
Qed.

(** ** Runs that cannot fail, and runs that do *)

Lemma writeField_healthy (e : Encoder) (b : bytes) :
  healthy (w e) -> err (writeField e b) = None /\ healthy (w (writeField e b)).
Proof.
  intros H. unfold writeField.
  destruct (Write_healthy (w e) (escapeField (bufio.AvailableBuffer (w e)) b) H)
    as [Hw Hh].
  destruct (bufio.Write (w e) _) as [[nn we] w1]. simpl in Hw, Hh. subst we.
  destruct (int.dec (colsLeftInRow e) =? 0).
  - destruct (WriteByte_healthy w1 LF Hh) as [Hb Hh2].
    destruct (bufio.WriteByte w1 LF) as [be w2]. simpl in *. now subst be.
  - destruct (WriteByte_healthy w1 TAB Hh) as [Hb Hh2].
    destruct (bufio.WriteByte w1 TAB) as [be w2]. simpl in *. now subst be.
Qed.

(** Over a sink that does not fail, calls whose values convert latch no
    error. *)
Lemma run_healthy (ops : list op) :
  forall e, healthy (w e) -> err e = None ->
    forallb (converts (encoderOptions e)) ops = true ->
    err (run ops e) = None /\ healthy (w (run ops e)).
Proof.
  induction ops as [|o ops IH]; intros e Hh He Hc; [now split|].
  cbn [forallb] in Hc. apply andb_true_iff in Hc as [Ho Hc].
  change (run (o :: ops) e) with (run ops (call e o)).
  assert (H1 : err (call e o) = None /\ healthy (w (call e o))
               /\ encoderOptions (call e o) = encoderOptions e).
  { destruct o; cbn [call]; unfold AppendString, AppendBytes, AppendValue, Close;
      rewrite He.
    - destruct (writeField_healthy e b Hh). auto using writeField_options.
    - destruct (writeField_healthy e (of_string s) Hh). auto using writeField_options.
    - cbn [converts] in Ho.
      destruct (valueToBytes v (encoderOptions e)) as [b [x|]]; [discriminate|].
      destruct (writeField_healthy e b Hh). auto using writeField_options.
    - destruct (Flush_healthy (w e) Hh) as [_ Hf].
      destruct (bufio.Flush (w e)) as [fe w1]. simpl in *. auto.
    - auto. }
  destruct H1 as (He1 & Hh1 & Hcfg). apply IH; auto. now rewrite Hcfg.
Qed.

Lemma appends_to_Buffer_succeed (content : list byte) (n : Z)
  (cfg : option EncoderOptions) (ops : list op) :
  forallb (converts cfg) ops = true ->
  Error (run ops (NewEncoder (io.Buffer content) n cfg)) = None.
Proof.
  intros H. apply (run_healthy ops (NewEncoder (io.Buffer content) n cfg)); auto.
  now split.
Qed.

(** A [writeField] that fails has emitted no more than a part of the
    escaped field, and no terminator. *)
Lemma writeField_failed (e : Encoder) (b : bytes) :
  err (writeField e b) <> None ->
  exists k, stream (writeField e b)
            = stream e ++ firstn k (escapeField nil_slice b).
Proof.
  unfold writeField, stream. rewrite escapeField_AvailableBuffer.
  destruct (bufio.Write (w e) (escapeField nil_slice b)) as [[nn we] w1] eqn:Hw.
  destruct (Write_spec _ _ _ _ _ Hw) as (_ & _ & Hpart & Hall & _).
  destruct we as [x|]; [intros _; exact Hpart|].
  assert (Hfull : bufio.stream w1
                  = bufio.stream (w e)
                      ++ firstn (List.length (escapeField nil_slice b))
                           (escapeField nil_slice b))
    by (now rewrite firstn_all, (Hall eq_refl)).
  destruct (int.dec (colsLeftInRow e) =? 0).
  - destruct (bufio.WriteByte w1 LF) as [be w2] eqn:Hb.
    destruct (WriteByte_spec _ _ _ _ Hb) as (_ & _ & _ & Hko & _). simpl.
    intros H. eexists. rewrite (Hko H). exact Hfull.
  - destruct (bufio.WriteByte w1 TAB) as [be w2] eqn:Hb.
    destruct (WriteByte_spec _ _ _ _ Hb) as (_ & _ & _ & Hko & _). simpl.
    intros H. eexists. rewrite (Hko H). exact Hfull.
Qed.

(** An append that fails has emitted a part of its escaped field. *)
Lemma append_failed (e : Encoder) (o : op) :
  is_append o = true -> err e = None -> err (call e o) <> None ->
  exists k, stream (call e o)
            = stream e ++ firstn k (escapeField nil_slice (field_of (encoderOptions e) o)).
Proof.
  destruct o; try discriminate; intros _ He; cbn [call field_of];
    unfold AppendString, AppendBytes, AppendValue; rewrite He.
  - apply writeField_failed.
  - apply writeField_failed.
  - destruct (valueToBytes v (encoderOptions e)) as [b [x|]]; cbn [fst].
    + intros _. exists 0%nat. unfold stream. simpl. now rewrite app_nil_r.
    + apply writeField_failed.
Qed.

(** Any run of appends, failed or not: the fields written whole with their
    terminators, then at most a part of the next escaped field. *)
Lemma run_appends_any (ops : list op) :
  forall e, forallb is_append ops = true -> err e = None ->
    exists j k,
      stream (run ops e)
      = stream e
          ++ spec.flatten
               (frame (numColumnsPerRow e) (colsLeftInRow e)
                  (firstn j (map (field_of (encoderOptions e)) ops)))
          ++ firstn k
               (escapeField nil_slice
                  (nth j (map (field_of (encoderOptions e)) ops) None))
      /\ (j <= List.length ops)%nat
      /\ (err (run ops e) = None -> j = List.length ops).
Proof.
  induction ops as [|o ops IH]; intros e Happ He.
  - exists 0%nat, 0%nat. simpl. rewrite !app_nil_r. auto.
  - cbn [forallb] in Happ. apply andb_true_iff in Happ as [Ho Hops].
    change (run (o :: ops) e) with (run ops (call e o)).
    destruct (err (call e o)) as [x|] eqn:E.
    + assert (Hne : err (call e o) <> None) by congruence.
      rewrite (run_latched ops _ Hne).
      destruct (append_failed e o Ho He Hne) as [k Hk].
      exists 0%nat, k. cbn [firstn frame spec.flatten flat_map map nth app].
      rewrite Hk. splits; [reflexivity | lia | congruence].
    + destruct (append_ok e o Ho E) as (_ & Hcall).
      destruct (writeField_spec e (field_of (encoderOptions e) o))
        as (Hn1 & Hcfg1 & _ & Hok).
      rewrite <- Hcall in Hn1, Hcfg1, Hok. destruct (Hok E) as (Hs1 & Hc1).
      destruct (IH (call e o) Hops E) as (j & k & Hs & Hj & Hall).
      exists (S j), k. rewrite Hs, Hn1, Hcfg1, Hs1, Hc1.
      cbn [map firstn nth frame List.length].
      unfold terminator_of, counter_next.
      splits; [|lia|intros H; now rewrite (Hall H)].
      destruct (int.dec (colsLeftInRow e) =? 0);
        cbn [spec.flatten flat_map fst snd]; now rewrite <- !app_assoc.
Qed.

End RowEncoder.

(* ================================================================== *)
(** * Framing by the counter *)

(** What follows holds for a positive column count within Go's [int]. *)
Section Framing.

Variable n : Z.
Hypothesis Hn : 0 < n <= int.max.

Lemma frame_row (r : list bytes) :
  forall c rest, 1 <= c <= n -> Z.of_nat (List.length r) = c ->
    frame n c (r ++ rest) = spec.row_pieces r ++ frame n n rest.
Proof.
  induction r as [|f r IH]; intros c rest Hc Hlen.
  - simpl in Hlen. lia.
  - cbn [app frame]. rewrite int_dec_in_range by lia.
    destruct (c - 1 =? 0) eqn:E.
    + apply Z.eqb_eq in E. destruct r as [|g r]; [reflexivity|].
      cbn [List.length] in Hlen. lia.
    + apply Z.eqb_neq in E. rewrite (IH (c - 1) rest).
      * destruct r as [|g r]; [|reflexivity]. cbn [List.length] in Hlen. lia.
      * lia.
      * cbn [List.length] in Hlen. lia.
Qed.

Lemma frame_rows (rs : list (list bytes)) :
  Forall (fun r => Z.of_nat (List.length r) = n) rs ->
  frame n n (List.concat rs) = List.concat (map spec.row_pieces rs).
Proof.
  induction 1 as [|r rs Hr _ IH]; [reflexivity|].
  cbn [List.concat map]. rewrite frame_row by (auto; lia). now rewrite IH.
Qed.

Lemma counter_after_row (k : nat) :
  forall c, 1 <= c <= n -> Z.of_nat k = c -> counter_after n c k = n.
Proof.
  induction k as [|k IH]; intros c Hc Hk; [lia|].
  cbn [counter_after]. rewrite int_dec_in_range by lia.
  destruct (c - 1 =? 0) eqn:E.
  - apply Z.eqb_eq in E. destruct k; [reflexivity|lia].
  - apply Z.eqb_neq in E. apply IH; lia.
Qed.

Lemma counter_after_add (a b : nat) :
  forall c, counter_after n c (a + b) = counter_after n (counter_after n c a) b.
Proof. induction a as [|a IH]; intros c; [reflexivity|]. simpl. apply IH. Qed.

Lemma counter_after_rows (rs : list (list bytes)) :
  Forall (fun r => Z.of_nat (List.length r) = n) rs ->
  counter_after n n (List.length (List.concat rs)) = n.
Proof.
  induction 1 as [|r rs Hr _ IH]; [reflexivity|].
  cbn [List.concat]. rewrite length_app, counter_after_add.
  rewrite (counter_after_row (List.length r) n) by (auto; lia). exact IH.
Qed.

Lemma frame_numbered (fields : list bytes) :
  forall i c, c = n - Z.of_nat i mod n ->
    frame n c fields = spec.numbered n i fields.
Proof.
  induction fields as [|f fields IH]; intros i c Hc; [reflexivity|].
  pose proof (Z.mod_pos_bound (Z.of_nat i) n ltac:(lia)) as Hr.
  cbn [frame spec.numbered]. rewrite int_dec_in_range by lia.
  unfold spec.terminator.
  assert (Hi : Z.of_nat (S i) = Z.of_nat i + 1) by lia. rewrite Hi.
  pose proof (Z.div_mod (Z.of_nat i) n ltac:(lia)) as Hdm.
  destruct (c - 1 =? 0) eqn:E.
  - apply Z.eqb_eq in E.
    assert (Hm : (Z.of_nat i + 1) mod n = 0).
    { symmetry. apply (Z.mod_unique _ _ (Z.of_nat i / n + 1)); [left; lia|]. nia. }
    rewrite Hm. cbn [Z.eqb]. f_equal. apply IH. rewrite Hi, Hm. lia.
  - apply Z.eqb_neq in E.
    assert (Hm : (Z.of_nat i + 1) mod n = Z.of_nat i mod n + 1).
    { symmetry. apply (Z.mod_unique _ _ (Z.of_nat i / n)); [left; lia|]. nia. }
    rewrite Hm. destruct (Z.of_nat i mod n + 1 =? 0) eqn:E2;
      [apply Z.eqb_eq in E2; lia|].
    f_equal. apply IH. rewrite Hi, Hm. lia.
Qed.

(** One call keeps the column count, and the counter between 1 and it. *)
Lemma call_invariant (e : Encoder) (o : op) :
  numColumnsPerRow e = n /\ 1 <= colsLeftInRow e <= n ->
  numColumnsPerRow (call e o) = n /\ 1 <= colsLeftInRow (call e o) <= n.
Proof.
  intros [Hcols Hc].
  assert (Hwf : forall b, numColumnsPerRow (writeField e b) = n
                          /\ 1 <= colsLeftInRow (writeField e b) <= n).
  { intros b. destruct (writeField_spec e b) as (Hn1 & _ & Hc1 & _).
    split; [congruence|]. destruct Hc1 as [-> | ->]; [exact Hc|].
    unfold counter_next. rewrite int_dec_in_range by lia.
    destruct (colsLeftInRow e - 1 =? 0) eqn:E; [lia|].
    apply Z.eqb_neq in E. lia. }
  destruct o; simpl; unfold AppendString, AppendBytes, AppendValue, Close.
  - destruct (err e); auto.
  - destruct (err e); auto.
  - destruct (err e); auto.
    destruct (valueToBytes v (encoderOptions e)) as [b [x|]]; auto.
  - destruct (err e); auto. destruct (bufio.Flush (w e)); auto.
  - auto.
Qed.

Lemma run_invariant (ops : list op) :
  forall e, numColumnsPerRow e = n /\ 1 <= colsLeftInRow e <= n ->
    numColumnsPerRow (run ops e) = n /\ 1 <= colsLeftInRow (run ops e) <= n.
Proof.
  induction ops as [|o ops IH]; intros e H; [exact H|].
  apply (IH (call e o)). now apply call_invariant.
Qed.

End Framing.

(* ================================================================== *)
(** * The value converter: date and time *)

Section TimeFormat.

Lemma fixed_length (width : nat) :
  forall u, List.length (strconv.fixed width u) = width.
Proof.
  induction width as [|k IH]; intros u; [reflexivity|].
  cbn [strconv.fixed]. rewrite length_app, IH. simpl. lia.
Qed.

Lemma digit_is_digit (d : Z) : strconv.is_digit (strconv.digit d) = true.
Proof.
  unfold strconv.digit. generalize (Z.to_nat d). intros k.
  do 10 (destruct k as [|k]; [reflexivity|]). now destruct k.
Qed.

Lemma digit_zero (d : Z) : 0 <= d < 10 -> strconv.digit d = x30 -> d = 0.
Proof.
  intros Hd. unfold strconv.digit.
  assert (H : d = 0 \/ d = 1 \/ d = 2 \/ d = 3 \/ d = 4 \/ d = 5 \/ d = 6
              \/ d = 7 \/ d = 8 \/ d = 9) by lia.
  repeat (destruct H as [-> | H]; [simpl; intros E; (reflexivity || discriminate E)|]).
  subst d. discriminate.
Qed.

Lemma fixed_digits (width : nat) :
  forall u, forallb strconv.is_digit (strconv.fixed width u) = true.
Proof.
  induction width as [|k IH]; intros u; [reflexivity|].
  cbn [strconv.fixed]. rewrite forallb_app, IH. cbn [forallb].
  now rewrite digit_is_digit.
Qed.

(** Digits that are all zero spell a multiple of the power of ten. *)
Lemma fixed_zero (width : nat) :
  forall u, 0 <= u -> Forall (eq x30) (strconv.fixed width u) ->
    u mod 10 ^ Z.of_nat width = 0.
Proof.
  induction width as [|k IH]; intros u Hu H.
  - apply Z.mod_1_r.
  - cbn [strconv.fixed] in H. apply Forall_app in H as [H1 H2].
    inversion H2 as [|? ? Hd _]; subst.
    pose proof (Z.mod_pos_bound u 10 ltac:(lia)) as Hb.
    symmetry in Hd. apply (digit_zero _ Hb) in Hd.
    assert (Hq : 0 <= u / 10) by (apply Z.div_pos; lia).
    specialize (IH _ Hq H1).
    assert (Hp : 0 < 10 ^ Z.of_nat k) by (apply Z.pow_pos_nonneg; lia).
    apply Z.mod_divide in IH; [|lia]. destruct IH as [q Eq].
    rewrite Nat2Z.inj_succ, Z.pow_succ_r by lia.
    apply Z.mod_divide; [lia|]. exists q.
    pose proof (Z.div_mod u 10 ltac:(lia)) as Hdm. rewrite Hd, Eq in Hdm. lia.
Qed.

Lemma ndigits_fuel_le (fuel : nat) :
  forall (k : nat) u, (1 <= k)%nat -> 0 <= u < 10 ^ Z.of_nat k ->
    (strconv.ndigits_fuel fuel u <= k)%nat.
Proof.
  induction fuel as [|f IH]; intros k u Hk Hu; [exact Hk|].
  cbn [strconv.ndigits_fuel]. destruct (u <? 10) eqn:E; [exact Hk|].
  apply Z.ltb_ge in E. destruct k as [|k]; [lia|].
  rewrite Nat2Z.inj_succ, Z.pow_succ_r in Hu by lia.
  destruct k as [|k]; [simpl in Hu; lia|].
  apply le_n_S, IH; [lia|]. split; [apply Z.div_pos; lia|].
  apply Z.div_lt_upper_bound; lia.
Qed.

(** A number that fits the width is printed with exactly that width. *)
Lemma appendInt_small (x : Z) (width : nat) :
  (1 <= width)%nat -> 0 <= x < 10 ^ Z.of_nat width ->
  time.appendInt x width = strconv.fixed width x.
Proof.
  intros Hw Hx. unfold time.appendInt.
  destruct (x <? 0) eqn:E; [apply Z.ltb_lt in E; lia|].
  rewrite Z.abs_eq by lia. cbn [app].
  now rewrite Nat.max_l by (apply ndigits_fuel_le; assumption).
Qed.

Lemma trim_zeros_rev_length (l : list byte) :
  (List.length (time.trim_zeros_rev l) <= List.length l)%nat.
Proof.
  induction l as [|c l IH]; [reflexivity|].
  destruct c; cbn [time.trim_zeros_rev List.length]; lia.
Qed.

Lemma trim_zeros_rev_nil (l : list byte) :
  time.trim_zeros_rev l = [] -> Forall (eq x30) l.
Proof.
  induction l as [|c l IH]; [constructor|].
  destruct c; cbn [time.trim_zeros_rev]; try discriminate.
  intros H. constructor; auto.
Qed.

Lemma trim_zeros_rev_forallb (P : byte -> bool) (l : list byte) :
  forallb P l = true -> forallb P (time.trim_zeros_rev l) = true.
Proof.
  induction l as [|c l IH]; [reflexivity|]. intros H.
  pose proof H as H'. cbn [forallb] in H'. apply andb_true_iff in H' as [_ Hl].
  destruct c; cbn [time.trim_zeros_rev]; auto.
Qed.

Lemma forallb_rev (P : byte -> bool) (l : list byte) :
  forallb P (rev l) = forallb P l.
Proof.
  induction l as [|c l IH]; [reflexivity|].
  cbn [rev forallb]. rewrite forallb_app, IH. cbn [forallb].
  rewrite andb_true_r. apply andb_comm.
Qed.

(** The fraction of a nonzero nanosecond: one to nine digits. *)
Lemma frac_digits_spec (t : time.Time) :
  0 < time.Nanosecond t < 10 ^ 9 ->
  time.frac_digits t = time.trim_zeros (strconv.fixed 9 (time.Nanosecond t))
  /\ (1 <= List.length (time.frac_digits t) <= 9)%nat
  /\ forallb strconv.is_digit (time.frac_digits t) = true.
Proof.
  intros Hns. unfold time.frac_digits.
  rewrite (appendInt_small _ 9) by (simpl; lia).
  set (ds := strconv.fixed 9 (time.Nanosecond t)).
  assert (Hlen : List.length ds = 9%nat) by apply fixed_length.
  unfold time.trim_zeros. rewrite length_rev.
  pose proof (trim_zeros_rev_length (rev ds)) as Hle. rewrite length_rev, Hlen in Hle.
  splits; try reflexivity.
  - destruct (time.trim_zeros_rev (rev ds)) eqn:E; [|simpl; lia].
    apply trim_zeros_rev_nil, Forall_rev in E. rewrite rev_involutive in E.
    apply fixed_zero in E; [|lia]. change (Z.of_nat 9) with 9 in E.
    rewrite Z.mod_small in E by lia. lia.
  - exact Hle.
  - rewrite forallb_rev. apply trim_zeros_rev_forallb.
    rewrite forallb_rev. apply fixed_digits.
Qed.

Lemma Clock_bounds (t : time.Time) :
  let '(hour, min, sec) := time.Clock t in
  0 <= hour < 24 /\ 0 <= min < 60 /\ 0 <= sec < 60.
Proof.
  unfold time.Clock.
  pose proof (Z.mod_pos_bound (time.wall t) 86400 ltac:(lia)) as Hs.
  set (s := time.wall t mod 86400) in *.
  pose proof (Z.mod_pos_bound s 3600 ltac:(lia)).
  pose proof (Z.mod_pos_bound s 60 ltac:(lia)).
  splits; try lia.
  - apply Z.div_pos; lia.
  - apply Z.div_lt_upper_bound; lia.
  - apply Z.div_pos; lia.
  - apply Z.div_lt_upper_bound; lia.
Qed.

Lemma format_clock_length (t : time.Time) :
  List.length (time.format_clock t) = 8%nat.
Proof.
  unfold time.format_clock. pose proof (Clock_bounds t) as H.
  destruct (time.Clock t) as [[hour min] sec]. destruct H as (Hh & Hm & Hs).
  rewrite !(appendInt_small _ 2) by (simpl; lia).
  now rewrite !length_app, !fixed_length.
Qed.

Lemma civil_bounds (days : Z) :
  let '(y, m, d) := time.civil days in 1 <= m <= 12 /\ 1 <= d <= 31.
Proof.
  unfold time.civil.
  set (z := days + 719468). set (era := z / 146097).
  set (doe := z - era * 146097).
  assert (Hdoe : 0 <= doe < 146097).
  { unfold doe, era. pose proof (Z.mod_pos_bound z 146097 ltac:(lia)) as H.
    rewrite Z.mod_eq in H by lia. lia. }
  clearbody doe. clear z era.
  set (yoe := (doe - doe / 1460 + doe / 36524 - doe / 146096) / 365).
  set (doy := doe - (365 * yoe + yoe / 4 - yoe / 100)).
  assert (Hdoy : 0 <= doy <= 365).
  { unfold doy, yoe. Z.to_euclidean_division_equations; lia. }
  clearbody doy.
  set (mp := (5 * doy + 2) / 153).
  assert (Hmp : 0 <= mp <= 11) by (unfold mp; Z.to_euclidean_division_equations; lia).
  split.
  - destruct (mp <? 10) eqn:E; [apply Z.ltb_lt in E | apply Z.ltb_ge in E]; lia.
  - unfold mp. Z.to_euclidean_division_equations; lia.
Qed.

Lemma format_date_length (t : time.Time) :
  0 <= fst (fst (time.Date t)) < 10000 ->
  List.length (time.format_date t) = 10%nat.
Proof.
  unfold time.format_date, time.Date.
  pose proof (civil_bounds (time.wall t / 86400)) as H.
  destruct (time.civil _) as [[y m] d]. destruct H as (Hm & Hd).
  cbn [fst]. intros Hy.
  rewrite (appendInt_small _ 4), !(appendInt_small _ 2) by (simpl; lia).
  now rewrite !length_app, !fixed_length.
Qed.

Lemma Format_layouts (t : time.Time) :
  time.Format t "2006-01-02" = time.format_date t
  /\ time.Format t "2006-01-02 15:04:05"
     = time.format_date t ++ [x20] ++ time.format_clock t
  /\ time.Format t "2006-01-02 15:04:05.999999999"
     = time.format_date t ++ [x20] ++ time.format_clock t ++ time.appendNano t.
Proof. splits; reflexivity. Qed.

End TimeFormat.

(* ================================================================== *)
(** * The claims *)

(** ** The field escaper *)

(** C1. For a non-nil byte sequence the escaper returns one opening quote,
    then for each input byte in order its entry of the fixed table (two
    bytes for the eight special bytes, the byte itself for every other,
    non-ASCII included), then one closing quote.  This holds for the empty
    [appendTo] of any capacity, which is what both callers pass:
    [bufio.AvailableBuffer] in [writeField], nil in [EscapeValue]. *)
Theorem escapeField_table (data : list byte) :
  (forall c : nat, escapeField (mkslice [] c) (Some data) = spec_escape data)
  /\ (forall b : bufio.Writer,
        escapeField (bufio.AvailableBuffer b) (Some data) = spec_escape data)
  /\ escapeField nil_slice (Some data) = spec_escape data
  /\ spec_escape data = [QUOTE] ++ flat_map spec_escape_byte data ++ [QUOTE]
  /\ spec_escape_byte x00 = [BACKSLASH; x30]
  /\ spec_escape_byte x08 = [BACKSLASH; x62]
  /\ spec_escape_byte x0a = [BACKSLASH; x6e]
  /\ spec_escape_byte x0d = [BACKSLASH; x72]
  /\ spec_escape_byte x09 = [BACKSLASH; x74]
  /\ spec_escape_byte x1a = [BACKSLASH; x5a]
  /\ spec_escape_byte x5c = [BACKSLASH; BACKSLASH]
  /\ spec_escape_byte x22 = [BACKSLASH; QUOTE]
  /\ (forall c : byte, is_special c = false -> spec_escape_byte c = [c]).
Proof.
  repeat split; try reflexivity.
  - intros c. now rewrite escapeField_empty, escapeField_nil_slice.
  - intros b. now rewrite escapeField_AvailableBuffer, escapeField_nil_slice.
  - apply escapeField_nil_slice.
  - apply spec_escape_byte_plain.
Qed.

(** C2. A nil slice escapes to the two bytes backslash, N, without quotes;
    no non-nil slice escapes to these two bytes, whatever [appendTo]; the
    empty non-nil slice escapes to two quote bytes. *)
Theorem escapeField_null_marker :
  (forall appendTo : slice, escapeField appendTo None = [BACKSLASH; x4e])
  /\ (forall (appendTo : slice) (data : list byte),
        escapeField appendTo (Some data) <> [BACKSLASH; x4e])
  /\ (forall c : nat, escapeField (mkslice [] c) (Some []) = [QUOTE; QUOTE])
  /\ [QUOTE; QUOTE] <> [BACKSLASH; x4e].
Proof.
  repeat split; try discriminate.
  - intros appendTo data. rewrite escapeField_present. unfold spec_escape.
    change (QUOTE :: flat_map spec_escape_byte data ++ [QUOTE])
      with ((QUOTE :: flat_map spec_escape_byte data) ++ [QUOTE]).
    rewrite app_assoc. change [BACKSLASH; x4e] with ([BACKSLASH] ++ [x4e]).
    intros H. apply app_inj_tail in H as [_ H]. discriminate.
  - intros c. now rewrite escapeField_empty.
Qed.

(** C3. Reading an escaped field back with the paired reader gives the
    bytes that were escaped, for every byte sequence; and the NULL marker
    reads back as NULL. *)
Theorem escape_unescape_roundtrip (b : list byte) :
  (forall c : nat,
     reader.unescape (escapeField (mkslice [] c) (Some b)) = Some (Some b))
  /\ (forall w0 : bufio.Writer,
        reader.unescape (escapeField (bufio.AvailableBuffer w0) (Some b))
        = Some (Some b))
  /\ (forall appendTo : slice,
        reader.unescape (escapeField appendTo None) = Some None).
Proof.
  assert (H : reader.unescape (escapeField nil_slice (Some b)) = Some (Some b)).
  { rewrite escapeField_nil_slice. unfold spec_escape.
    change (reader.unescape (QUOTE :: ?l)) with (option_map Some (reader.enclosed l)).
    now rewrite enclosed_escape. }
  repeat split.
  - intros c. now rewrite escapeField_empty.
  - intros w0. now rewrite escapeField_AvailableBuffer.
Qed.

(** ** The value converter *)



(** ** The row encoder *)

(** C4. On an encoder of [n > 0] columns, [rows] of [n] appends each, all
    succeeding, emit exactly the rows of the format: the escaped fields of
    a row separated by single tabs and closed by a single newline, so one
    newline per row, [n * N - N] tabs, no other byte between or around, and
    the counter back at [n]; [Close] then hands exactly these bytes to the
    sink.  Per field: once the escaped field is written the counter is
    decremented, and reset to the column count when that gives zero; a
    [writeField] that succeeds has emitted the escaped field and one
    terminator, the newline where the counter was reset and the tab
    elsewhere. *)
Theorem row_framing (sink : io.Writer) (n : Z) (cfg : option EncoderOptions)
  (rows : list (list op)) :
  0 < n <= int.max ->
  Forall (fun r => Z.of_nat (List.length r) = n /\ forallb is_append r = true) rows ->
  Error (run (List.concat rows) (NewEncoder sink n cfg)) = None ->
  let e := run (List.concat rows) (NewEncoder sink n cfg) in
  let out := produced (io.taken sink) e in
  let N := Z.of_nat (List.length rows) in
  out = spec.rows (map (map (field_of cfg)) rows)
  /\ Z.of_nat (count LF out) = N
  /\ Z.of_nat (count TAB out) = n * N - N
  /\ colsLeftInRow e = n
  /\ (fst (Close e) = None ->
      io.taken (bufio.wr (w (snd (Close e)))) = io.taken sink ++ out)
  /\ (forall (e1 : Encoder) (b : bytes),
        1 <= colsLeftInRow e1 <= int.max ->
        let wrote :=
          bufio.Write (w e1) (escapeField (bufio.AvailableBuffer (w e1)) b) in
        let cols := colsLeftInRow e1 - 1 in
        (snd (fst wrote) = None ->
         colsLeftInRow (writeField e1 b)
         = if cols =? 0 then numColumnsPerRow e1 else cols)
        /\ (Error (writeField e1 b) = None ->
            stream (writeField e1 b)
            = stream e1 ++ escapeField nil_slice b
                ++ [if cols =? 0 then LF else TAB])).
Proof.
  intros Hn Hrows Herr e out N.
  destruct (Forall_rows n rows cfg Hrows) as [Hlen Happ].
  destruct (run_appends _ _ Happ Herr) as (_ & _ & _ & Hs & Hc).
  fold e in Hs, Hc. cbn [NewEncoder numColumnsPerRow colsLeftInRow encoderOptions] in Hs, Hc.
  rewrite stream_NewEncoder in Hs.
  rewrite concat_map, (frame_rows n Hn _ Hlen), flatten_rows in Hs.
  assert (Hout : out = spec.rows (map (map (field_of cfg)) rows))
    by (now apply produced_app).
  destruct (count_rows n (proj1 Hn) _ Hlen) as [HLF HTAB].
  rewrite length_map in HLF, HTAB.
  splits.
  - exact Hout.
  - rewrite Hout, HLF. reflexivity.
  - rewrite Hout. exact HTAB.
  - rewrite Hc, <- (length_map (field_of cfg)), concat_map.
    now apply counter_after_rows.
  - unfold Close. replace (err e) with (@None error) by (symmetry; exact Herr).
    destruct (bufio.Flush (w e)) as [fe w1] eqn:Hf. simpl.
    destruct (Flush_spec _ _ _ Hf) as (_ & _ & _ & Hok & _).
    intros ->. destruct (Hok eq_refl) as [_ Ht]. rewrite Ht.
    fold (stream e). now rewrite Hs, Hout.
  - intros e1 b Hc1 wrote cols.
    assert (Hdec : int.dec (colsLeftInRow e1) = cols)
      by (apply int_dec_in_range; unfold int.max in *; lia).
    split.
    + intros Hw. pose proof (writeField_counter e1 b) as H. fold wrote in H.
      rewrite Hw in H. rewrite H. unfold counter_next. now rewrite Hdec.
    + intros He1. destruct (writeField_spec e1 b) as (_ & _ & _ & Hok).
      destruct (Hok He1) as [Hst _]. rewrite Hst. unfold terminator_of.
      now rewrite Hdec.
Qed.

(** C5. Once an error is latched, every append leaves the encoder as it
    is (writer, counter and error), so does any sequence of calls, and
    [Close] and [Error] report that same error.  The error is latched where
    it first occurs: a value that fails to convert sets it and leaves the
    writer and the counter alone, and after [writeField] the latched error
    is the one of the writer. *)
Theorem error_latched (e : Encoder) (x : error) :
  Error e = Some x ->
  (forall b, AppendBytes e b = e)
  /\ (forall s, AppendString e s = e)
  /\ (forall v, AppendValue e v = e)
  /\ (forall ops, run ops e = e)
  /\ (forall ops, stream (run ops e) = stream e)
  /\ (forall ops, fst (Close (run ops e)) = Some x /\ Error (run ops e) = Some x)
  /\ (forall w0 n c cfg v b y,
        valueToBytes v cfg = (b, Some y) ->
        AppendValue (mkEncoder w0 n c None cfg) v = mkEncoder w0 n c (Some y) cfg)
  /\ (forall e1 b, Error (writeField e1 b) = bufio.err (w (writeField e1 b))).
Proof.
  intros H. assert (Hne : err e <> None) by (unfold Error in H; congruence).
  splits.
  - intros b. apply (call_latched e (CallAppendBytes b) Hne).
  - intros s. apply (call_latched e (CallAppendString s) Hne).
  - intros v. apply (call_latched e (CallAppendValue v) Hne).
  - intros ops. now apply run_latched.
  - intros ops. now rewrite run_latched.
  - intros ops. rewrite run_latched by exact Hne. unfold Close.
    unfold Error in *. now rewrite H.
  - intros w0 n c cfg v b y Hv. unfold AppendValue. simpl. now rewrite Hv.
  - intros e1 b. apply writeField_err.
Qed.

(** C6. [Close] with an error latched returns it and leaves the encoder,
    writer and sink included, as it is.  Otherwise it returns the result
    of flushing the writer: the latched error of the encoder stays nil
    whatever the flush returns, the stream of accepted bytes is the same,
    and after a nil result nothing is buffered and the sink holds the whole
    stream. *)
Theorem Close_spec (e : Encoder) :
  match Error e with
  | Some x => Close e = (Some x, e)
  | None =>
      Close e
      = (fst (bufio.Flush (w e)),
         mkEncoder (snd (bufio.Flush (w e))) (numColumnsPerRow e)
           (colsLeftInRow e) None (encoderOptions e))
      /\ Error (snd (Close e)) = None
      /\ stream (snd (Close e)) = stream e
      /\ (fst (Close e) = None ->
          bufio.buf (w (snd (Close e))) = []
          /\ io.taken (bufio.wr (w (snd (Close e)))) = stream e)
  end.
Proof.
  unfold Error, Close. destruct (err e) as [x|] eqn:E; [reflexivity|].
  destruct (bufio.Flush (w e)) as [fe w1] eqn:Hf. simpl.
  destruct (Flush_spec _ _ _ Hf) as (Hs & _ & _ & Hok & _).
  splits; auto.
Qed.

(** C9. An encoder made by [NewEncoder] with a positive column count has
    its counter between 0 and the column count, at construction and after
    any sequence of calls ([AppendBytes], [AppendString], [AppendValue],
    [Close], [Error]), whatever the sink answers and whether or not values
    convert; the column count never changes.  (The counter is in fact
    never 0 between calls.) *)
Theorem counter_invariant (sink : io.Writer) (n : Z) (cfg : option EncoderOptions)
  (ops : list op) :
  0 < n <= int.max ->
  counter_in_range (NewEncoder sink n cfg)
  /\ counter_in_range (run ops (NewEncoder sink n cfg))
  /\ (forall o, counter_in_range (call (run ops (NewEncoder sink n cfg)) o))
  /\ numColumnsPerRow (run ops (NewEncoder sink n cfg)) = n
  /\ 0 < colsLeftInRow (run ops (NewEncoder sink n cfg)).
Proof.
  intros Hn.
  assert (H0 : numColumnsPerRow (NewEncoder sink n cfg) = n
               /\ 1 <= colsLeftInRow (NewEncoder sink n cfg) <= n)
    by (simpl; lia).
  destruct (run_invariant n Hn ops _ H0) as [Hcols Hc].
  splits; unfold counter_in_range.
  - simpl. lia.
  - rewrite Hcols. lia.
  - intros o.
    destruct (call_invariant n Hn _ o (conj Hcols Hc)) as [Hcols1 Hc1].
    rewrite Hcols1. lia.
  - exact Hcols.
  - lia.
Qed.

(** C10. An escaped field holds no raw tab and no raw newline.  Hence in
    what an encoder of [n > 0] columns emits for a sequence of appends,
    each raw tab or newline is the terminator written after a field, the
    newline after every [n]-th field and the tab after the others: cutting
    the output at every raw tab and newline gives back the escaped fields
    written so far, in order, each with its terminator, followed at most
    by a part of the next escaped field when an append failed; and when
    all appends succeeded, exactly the escaped fields, one piece per
    append, with nothing left over. *)
Theorem raw_terminators (sink : io.Writer) (n : Z) (cfg : option EncoderOptions)
  (ops : list op) :
  0 < n <= int.max ->
  forallb is_append ops = true ->
  let e := run ops (NewEncoder sink n cfg) in
  let out := produced (io.taken sink) e in
  let fields := map (field_of cfg) ops in
  (forall (c : nat) (b : bytes),
     spec.no_terminator (escapeField (mkslice [] c) b) = true
     /\ count TAB (escapeField (mkslice [] c) b) = 0%nat
     /\ count LF (escapeField (mkslice [] c) b) = 0%nat)
  /\ (exists j k,
        (j <= List.length ops)%nat
        /\ spec.cut [] out
           = (spec.numbered n 0 (firstn j fields),
              firstn k (escapeField nil_slice (nth j fields None))))
  /\ (Error e = None ->
      spec.cut [] out = (spec.numbered n 0 fields, [])
      /\ out = spec.flatten (spec.numbered n 0 fields))
  /\ Forall spec.well_formed (spec.numbered n 0 fields)
  /\ map fst (spec.numbered n 0 fields) = map (escapeField nil_slice) fields
  /\ List.length (spec.numbered n 0 fields) = List.length ops.
Proof.
  intros Hn Happ e out fields.
  assert (Hfr : forall fs, frame n n fs = spec.numbered n 0 fs).
  { intros fs. apply frame_numbered; [exact Hn|]. rewrite Z.mod_0_l by lia. lia. }
  splits.
  - intros c b. rewrite escapeField_empty.
    pose proof (escapeField_no_terminator b) as H.
    destruct (no_terminator_count _ H). auto.
  - destruct (run_appends_any ops (NewEncoder sink n cfg) Happ eq_refl)
      as (j & k & Hs & Hj & _).
    cbn [NewEncoder numColumnsPerRow colsLeftInRow encoderOptions] in Hs.
    rewrite stream_NewEncoder, Hfr in Hs. fold fields in Hs.
    exists j, k. split; [exact Hj|].
    unfold out, e. rewrite (produced_app _ _ _ Hs).
    apply cut_flatten_rest.
    + rewrite <- Hfr. apply frame_well_formed.
    + apply no_terminator_firstn, escapeField_no_terminator.
  - intros Herr.
    destruct (run_appends _ _ Happ Herr) as (_ & _ & _ & Hs & _).
    cbn [NewEncoder numColumnsPerRow colsLeftInRow encoderOptions] in Hs.
    rewrite stream_NewEncoder, Hfr in Hs. fold fields in Hs.
    assert (Hout : out = spec.flatten (spec.numbered n 0 fields))
      by (now apply produced_app).
    split; [|exact Hout].
    rewrite Hout, <- Hfr. apply cut_flatten, frame_well_formed.
  - rewrite <- Hfr. apply frame_well_formed.
  - apply numbered_fst.
  - unfold fields. now rewrite numbered_length, length_map.
Qed.

(* ================================================================== *)
(** * The theorems at sample inputs *)

Example escapeField_sample :
  escapeField nil_slice (Some [x68; TAB; NUL; BACKSLASH; QUOTE; xff; SUB; CR; LF; BS])
  = [QUOTE; x68; BACKSLASH; x74; BACKSLASH; x30; BACKSLASH; BACKSLASH;
     BACKSLASH; QUOTE; xff; BACKSLASH; x5a; BACKSLASH; x72; BACKSLASH; x6e;
     BACKSLASH; x62; QUOTE].
Proof. reflexivity. Qed.

(** A non-empty [appendTo] with room is kept in front of the field. *)
Example escapeField_appends :
  escapeField (mkslice [x41] 16) (Some [x42]) = [x41; QUOTE; x42; QUOTE]
  /\ escapeField (mkslice [x41] 2) (Some [x42]) = [QUOTE; x42; QUOTE].
Proof. split; reflexivity. Qed.

Example rows_sample :
  let e := run (List.concat sample.rows) (NewEncoder (io.Buffer []) 2 None) in
  stream e = sample.rows_wire
  /\ Close e
     = (None,
        mkEncoder (bufio.mkWriter None [] bufio.defaultBufSize
                     (io.Buffer sample.rows_wire)) 2 2 None None).
Proof. split; vm_compute; reflexivity. Qed.

(** The small sink fails while [writeField] runs; the error is latched,
    the later calls change nothing, and [Close] reports it. *)
Example cramped_sample :
  let e := run sample.calls sample.cramped in
  Error e = Some sample.disk_full
  /\ fst (Close e) = Some sample.disk_full
  /\ stream e = [QUOTE] ++ sample.text "abc" ++ [QUOTE; TAB; QUOTE]
                ++ sample.text "1" ++ [QUOTE; LF; BACKSLASH; x4e; TAB; QUOTE]
                ++ sample.text "25"
  /\ io.taken (bufio.wr (w e))
     = [QUOTE] ++ sample.text "abc" ++ [QUOTE; TAB; QUOTE] ++ sample.text "1"
       ++ [QUOTE; LF; BACKSLASH]
  /\ colsLeftInRow e = 1.
Proof. vm_compute. splits; reflexivity. Qed.

Example time_samples :
  fst (valueToBytes (VTime sample.leap_noon) None)
  = Some (sample.text "2024-02-29 12:34:56.5")
  /\ fst (valueToBytes (VTime sample.leap_noon) sample.east)
     = Some (sample.text "2024-02-29 13:34:56.5")
  /\ fst (valueToBytes (VTime sample.midnight) None)
     = Some (sample.text "2024-02-29")
  /\ fst (valueToBytes (VTime sample.midnight) sample.east)
     = Some (sample.text "2024-02-29 01:00:00")
  /\ fst (valueToBytes (VTime (time.mkTime 0 1 time.UTC)) None)
     = Some (sample.text "1970-01-01 00:00:00.000000001").
Proof. vm_compute. splits; reflexivity. Qed.

Example integer_samples :
  valueToBytes (Vint64 (-9223372036854775808)) None
  = (Some (sample.text "-9223372036854775808"), None)
  /\ valueToBytes (Vuint64 18446744073709551615) None
     = (Some (sample.text "18446744073709551615"), None)
  /\ valueToBytes (Vint 0) None = (Some (sample.text "0"), None)
  /\ valueToBytes (Vother "float64") None
     = (None, Some (errorString "can't encode type float64 to TSV")).
Proof. vm_compute. splits; reflexivity. Qed.

Lemma row_framing_witness :
  let e := run (List.concat sample.rows) (NewEncoder (io.Buffer []) 2 None) in
  let out := produced [] e in
  0 < 2 <= int.max
  /\ out = spec.rows (map (map (field_of None)) sample.rows)
  /\ Z.of_nat (count LF out) = 2
  /\ Z.of_nat (count TAB out) = 2 * 2 - 2
  /\ colsLeftInRow e = 2.
Proof.
  assert (Hn : 0 < 2 <= int.max) by (unfold int.max; lia).
  destruct (row_framing (io.Buffer []) 2 None sample.rows) as (H1 & H2 & H3 & H4 & _).
  - exact Hn.
  - repeat constructor.
  - vm_compute. reflexivity.
  - exact (conj Hn (conj H1 (conj H2 (conj H3 H4)))).
Defined.

Lemma error_latched_witness :
  Error sample.failed = Some (Errorf_cant_encode "float64")
  /\ AppendBytes sample.failed (Some [x41]) = sample.failed
  /\ run (List.concat sample.rows) sample.failed = sample.failed
  /\ fst (Close (run (List.concat sample.rows) sample.failed))
     = Some (Errorf_cant_encode "float64").
Proof.
  assert (H : Error sample.failed = Some (Errorf_cant_encode "float64"))
    by reflexivity.
  destruct (error_latched sample.failed _ H) as (H1 & _ & _ & H2 & _ & H3 & _).
  splits.
  - exact H.
  - apply H1.
  - apply H2.
  - apply H3.
Defined.


Lemma counter_invariant_witness :
  0 < 3 <= int.max
  /\ counter_in_range (run sample.calls (NewEncoder sample.small_disk 3 None))
  /\ numColumnsPerRow (run sample.calls (NewEncoder sample.small_disk 3 None)) = 3.
Proof.
  assert (Hn : 0 < 3 <= int.max) by (unfold int.max; lia).
  destruct (counter_invariant sample.small_disk 3 None sample.calls Hn)
    as (_ & H1 & _ & H2 & _).
  exact (conj Hn (conj H1 H2)).
Defined.

Lemma raw_terminators_witness :
  let out := produced [] (run (List.concat sample.rows) (NewEncoder (io.Buffer []) 2 None)) in
  let fields := map (field_of None) (List.concat sample.rows) in
  0 < 2 <= int.max
  /\ spec.cut [] out = (spec.numbered 2 0 fields, [])
  /\ map fst (spec.numbered 2 0 fields) = map (escapeField nil_slice) fields.
Proof.
  assert (Hn : 0 < 2 <= int.max) by (unfold int.max; lia).
  assert (Happ : forallb is_append (List.concat sample.rows) = true) by reflexivity.
  destruct (raw_terminators (io.Buffer []) 2 None (List.concat sample.rows) Hn Happ)
    as (_ & _ & H1 & _ & H2 & _).
  assert (Herr : Error (run (List.concat sample.rows) (NewEncoder (io.Buffer []) 2 None))
                 = None) by (vm_compute; reflexivity).
  exact (conj Hn (conj (proj1 (H1 Herr)) H2)).
Defined.

(* ================================================================== *)
(** * More on the field escaper *)

Section EscaperMore.

Lemma spec_escape_byte_length (c : byte) :
  List.length (spec_escape_byte c) = if is_special c then 2%nat else 1%nat.
Proof. now destruct c. Qed.

Lemma flat_map_escape_length (data : list byte) :
  List.length (flat_map spec_escape_byte data)
  = (List.length data + List.length (filter is_special data))%nat.
Proof.
  induction data as [|c data IH]; [reflexivity|].
  cbn [flat_map filter List.length]. rewrite length_app, IH, spec_escape_byte_length.
  destruct (is_special c); cbn [List.length]; lia.
Qed.

Lemma filter_length_le {A : Type} (f : A -> bool) (l : list A) :
  (List.length (filter f l) <= List.length l)%nat.
Proof.
  induction l as [|a l IH]; [reflexivity|]. simpl.
  destruct (f a); simpl; lia.
Qed.

Lemma plain_filter (data : list byte) :
  plain data = true <-> filter is_special data = [].
Proof.
  unfold plain. induction data as [|c data IH]; [now split|].
  cbn [forallb filter]. destruct (is_special c); cbn [negb andb].
  - split; discriminate.
  - exact IH.
Qed.

Lemma flat_map_escape_plain (data : list byte) :
  plain data = true -> flat_map spec_escape_byte data = data.
Proof.
  unfold plain. induction data as [|c data IH]; [reflexivity|].
  cbn [forallb flat_map]. intros H. apply andb_true_iff in H as [Hc Hd].
  apply negb_true_iff in Hc. now rewrite (spec_escape_byte_plain c Hc), IH.
Qed.

Lemma spec_escape_byte_no_control (c : byte) :
  forallb (fun x => negb (is_control x)) (spec_escape_byte c) = true.
Proof. now destruct c. Qed.

(** The reader undoes the escaper on every field, NULL included. *)
Lemma unescape_escapeField (b : bytes) :
  reader.unescape (escapeField nil_slice b) = Some b.
Proof.
  destruct b as [data|]; [|reflexivity].
  rewrite escapeField_nil_slice. unfold spec_escape.
  change (reader.unescape (QUOTE :: ?l)) with (option_map Some (reader.enclosed l)).
  now rewrite enclosed_escape.
Qed.

End EscaperMore.

(** X1. The escaper is injective: two fields with the same escaped bytes
    are the same field, nil told apart from every non-nil slice and the
    capacity of the empty [appendTo] playing no part. *)
Theorem escapeField_injective (c1 c2 : nat) (a b : bytes) :
  escapeField (mkslice [] c1) a = escapeField (mkslice [] c2) b -> a = b.
Proof.
  rewrite !escapeField_empty. intros H.
  apply (f_equal reader.unescape) in H. rewrite !unescape_escapeField in H.
  now inversion H.
Qed.

Lemma escapeField_injective_witness :
  escapeField (mkslice [] 0) (Some [TAB; x41]) = escapeField (mkslice [] 64) (Some [TAB; x41])
  /\ Some [TAB; x41] = Some [TAB; x41].
Proof.
  assert (H : escapeField (mkslice [] 0) (Some [TAB; x41])
              = escapeField (mkslice [] 64) (Some [TAB; x41])) by reflexivity.
  exact (conj H (escapeField_injective 0 64 (Some [TAB; x41]) (Some [TAB; x41]) H)).
Defined.

(** X2. The escaped field of a non-nil slice is as long as the slice,
    plus the two quotes, plus one byte for each byte that is rewritten: so
    never shorter than [len(data)+2], the size the capacity test of
    [escapeField] asks for, and never longer than [2*len(data)+2]. *)
Theorem escapeField_length (c : nat) (data : list byte) :
  List.length (escapeField (mkslice [] c) (Some data))
  = (List.length data + 2 + List.length (filter is_special data))%nat
  /\ (List.length data + 2 <= List.length (escapeField (mkslice [] c) (Some data))
      <= 2 * List.length data + 2)%nat
  /\ (forall appendTo : slice,
        (List.length data + 2 <= List.length (escapeField appendTo (Some data)))%nat).
Proof.
  assert (H : List.length (spec_escape data)
              = (List.length data + 2 + List.length (filter is_special data))%nat).
  { unfold spec_escape. cbn [List.length].
    rewrite length_app, flat_map_escape_length. simpl. lia. }
  pose proof (filter_length_le is_special data) as Hle.
  rewrite escapeField_empty, escapeField_nil_slice. splits.
  - exact H.
  - lia.
  - lia.
  - intros appendTo. rewrite escapeField_present, length_app. lia.
Qed.

(** X3. A slice with no byte of the table is only wrapped in quotes, and
    only such a slice is: any byte of the table makes the escaped field
    differ from the quoted slice. *)
Theorem escapeField_plain (c : nat) (data : list byte) :
  plain data = true
  <-> escapeField (mkslice [] c) (Some data) = [QUOTE] ++ data ++ [QUOTE].
Proof.
  rewrite escapeField_empty, escapeField_nil_slice. unfold spec_escape. split.
  - intros H. now rewrite flat_map_escape_plain.
  - intros H. apply (f_equal (@List.length byte)) in H.
    cbn [List.length app] in H. rewrite !length_app, flat_map_escape_length in H.
    apply plain_filter, length_zero_iff_nil. lia.
Qed.

(** X4. No escaped field, the NULL marker included, holds a raw NUL,
    backspace, tab, newline, carriage return or SUB byte. *)
Theorem escapeField_no_control (c : nat) (b : bytes) :
  forallb (fun x => negb (is_control x)) (escapeField (mkslice [] c) b) = true.
Proof.
  rewrite escapeField_empty. destruct b as [data|]; [|reflexivity].
  rewrite escapeField_nil_slice. unfold spec_escape.
  cbn [forallb]. rewrite forallb_app. cbn [forallb].
  replace (forallb (fun x => negb (is_control x)) (flat_map spec_escape_byte data))
    with true; [reflexivity|].
  symmetry. induction data as [|x data IH]; [reflexivity|].
  cbn [flat_map]. now rewrite forallb_app, spec_escape_byte_no_control, IH.
Qed.

(* ================================================================== *)
(** * The value converter: integers *)

Section Integers.

Lemma digit_value_digit (d : Z) :
  0 <= d < 10 -> decimal.digit_value (strconv.digit d) = Some d.
Proof.
  intros Hd.
  assert (H : d = 0 \/ d = 1 \/ d = 2 \/ d = 3 \/ d = 4 \/ d = 5 \/ d = 6
              \/ d = 7 \/ d = 8 \/ d = 9) by lia.
  repeat (destruct H as [-> | H]; [reflexivity|]). now subst d.
Qed.

Lemma digits_value_app (l1 l2 : list byte) :
  forall acc,
    decimal.digits_value acc (l1 ++ l2)
    = match decimal.digits_value acc l1 with
      | Some a => decimal.digits_value a l2
      | None => None
      end.
Proof.
  induction l1 as [|c l1 IH]; intros acc; [reflexivity|].
  cbn [app decimal.digits_value]. destruct (decimal.digit_value c); auto.
Qed.

(** Reading [width] digits of [u] after [acc]. *)
Lemma digits_value_fixed (width : nat) :
  forall acc u, 0 <= u ->
    decimal.digits_value acc (strconv.fixed width u)
    = Some (acc * 10 ^ Z.of_nat width + u mod 10 ^ Z.of_nat width).
Proof.
  induction width as [|k IH]; intros acc u Hu.
  - cbn [strconv.fixed decimal.digits_value]. rewrite Z.mod_1_r. f_equal. simpl. lia.
  - cbn [strconv.fixed]. rewrite digits_value_app.
    rewrite IH by (apply Z.div_pos; lia).
    cbn [decimal.digits_value].
    rewrite digit_value_digit by (apply Z.mod_pos_bound; lia).
    f_equal. rewrite Nat2Z.inj_succ, Z.pow_succ_r by lia.
    assert (Hp : 0 < 10 ^ Z.of_nat k) by (apply Z.pow_pos_nonneg; lia).
    rewrite (Z.rem_mul_r u 10 (10 ^ Z.of_nat k)) by lia. lia.
Qed.

(** The fuel of [ndigits] is enough: the digits counted hold the number. *)
Lemma ndigits_fuel_upper (fuel : nat) :
  forall u, 0 <= u < 2 ^ (Z.of_nat fuel + 1) ->
    u < 10 ^ Z.of_nat (strconv.ndigits_fuel fuel u).
Proof.
  induction fuel as [|f IH]; intros u Hu.
  - simpl in *. lia.
  - cbn [strconv.ndigits_fuel]. destruct (u <? 10) eqn:E.
    + apply Z.ltb_lt in E. simpl. lia.
    + apply Z.ltb_ge in E.
      rewrite Nat2Z.inj_succ in Hu.
      replace (Z.succ (Z.of_nat f) + 1) with (Z.succ (Z.of_nat f + 1)) in Hu by lia.
      rewrite Z.pow_succ_r in Hu by lia.
      assert (Hq : 0 <= u / 10 < 2 ^ (Z.of_nat f + 1)).
      { split; [apply Z.div_pos; lia|]. apply Z.div_lt_upper_bound; lia. }
      specialize (IH _ Hq).
      rewrite Nat2Z.inj_succ, Z.pow_succ_r by lia.
      pose proof (Z.div_mod u 10 ltac:(lia)) as Hdm.
      pose proof (Z.mod_pos_bound u 10 ltac:(lia)). lia.
Qed.

Lemma ndigits_upper (u : Z) : 0 <= u -> u < 10 ^ Z.of_nat (strconv.ndigits u).
Proof.
  intros Hu. unfold strconv.ndigits. apply ndigits_fuel_upper.
  split; [exact Hu|]. rewrite Z2Nat.id by apply Z.log2_nonneg.
  destruct (Z.eq_dec u 0) as [-> | Hne]; [reflexivity|].
  pose proof (Z.log2_spec u ltac:(lia)) as H.
  replace (Z.log2 u + 1) with (Z.succ (Z.log2 u)) by lia. lia.
Qed.

(** The digits counted are all needed: the first is not a zero. *)
Lemma ndigits_fuel_lower (fuel : nat) :
  forall u, 0 < u -> 10 ^ (Z.of_nat (strconv.ndigits_fuel fuel u) - 1) <= u.
Proof.
  induction fuel as [|f IH]; intros u Hu.
  - simpl. lia.
  - cbn [strconv.ndigits_fuel]. destruct (u <? 10) eqn:E; [simpl; lia|].
    apply Z.ltb_ge in E.
    assert (Hq : 0 < u / 10) by (apply Z.div_str_pos; lia).
    specialize (IH _ Hq). rewrite Nat2Z.inj_succ.
    replace (Z.succ (Z.of_nat (strconv.ndigits_fuel f (u / 10))) - 1)
      with (Z.succ (Z.of_nat (strconv.ndigits_fuel f (u / 10)) - 1)) by lia.
    assert (H1 : (1 <= strconv.ndigits_fuel f (u / 10))%nat)
      by (destruct f; cbn [strconv.ndigits_fuel]; [lia|destruct (u / 10 <? 10); lia]).
    rewrite Z.pow_succ_r by lia.
    pose proof (Z.div_mod u 10 ltac:(lia)) as Hdm.
    pose proof (Z.mod_pos_bound u 10 ltac:(lia)). lia.
Qed.

Lemma ndigits_pos (u : Z) : (1 <= strconv.ndigits u)%nat.
Proof.
  unfold strconv.ndigits. destruct (Z.to_nat (Z.log2 u)); cbn [strconv.ndigits_fuel];
    [lia|destruct (u <? 10); lia].
Qed.

Lemma fixed_head (width : nat) :
  forall u, hd x30 (strconv.fixed (S width) u)
            = strconv.digit ((u / 10 ^ Z.of_nat width) mod 10).
Proof.
  induction width as [|k IH]; intros u.
  - cbn [strconv.fixed app hd]. now rewrite Z.div_1_r.
  - change (strconv.fixed (S (S k)) u)
      with (strconv.fixed (S k) (u / 10) ++ [strconv.digit (u mod 10)]).
    assert (Hne : strconv.fixed (S k) (u / 10) <> []).
    { intros H. apply (f_equal (@List.length byte)) in H.
      rewrite fixed_length in H. discriminate. }
    destruct (strconv.fixed (S k) (u / 10)) as [|c l] eqn:E; [now elim Hne|].
    cbn [app hd]. change c with (hd x30 (c :: l)). rewrite <- E, IH.
    rewrite Nat2Z.inj_succ, Z.pow_succ_r by lia.
    assert (Hp : 0 < 10 ^ Z.of_nat k) by (apply Z.pow_pos_nonneg; lia).
    now rewrite Z.div_div by lia.
Qed.

Lemma FormatUint_read (u : Z) :
  0 <= u -> decimal.read_unsigned (strconv.FormatUint u) = Some u.
Proof.
  intros Hu. unfold strconv.FormatUint, decimal.read_unsigned.
  pose proof (ndigits_pos u) as Hp. pose proof (ndigits_upper u Hu) as Hup.
  destruct (strconv.fixed (strconv.ndigits u) u) as [|c l] eqn:E.
  { apply (f_equal (@List.length byte)) in E. rewrite fixed_length in E.
    simpl in E. lia. }
  rewrite <- E, digits_value_fixed by exact Hu.
  rewrite Z.mod_small by lia. f_equal.
Qed.

Lemma FormatUint_digits (u : Z) :
  forallb strconv.is_digit (strconv.FormatUint u) = true
  /\ List.length (strconv.FormatUint u) = strconv.ndigits u.
Proof. split; [apply fixed_digits | apply fixed_length]. Qed.

Lemma FormatUint_first (u : Z) :
  0 < u -> hd x30 (strconv.FormatUint u) <> x30.
Proof.
  intros Hu. unfold strconv.FormatUint.
  pose proof (ndigits_pos u) as Hp.
  pose proof (ndigits_upper u ltac:(lia)) as Hup.
  assert (Hlow : 10 ^ (Z.of_nat (strconv.ndigits u) - 1) <= u)
    by (apply ndigits_fuel_lower; exact Hu).
  destruct (strconv.ndigits u) as [|k]; [lia|].
  rewrite fixed_head.
  replace (Z.of_nat (S k) - 1) with (Z.of_nat k) in Hlow by lia.
  rewrite Nat2Z.inj_succ, Z.pow_succ_r in Hup by lia.
  assert (Hpk : 0 < 10 ^ Z.of_nat k) by (apply Z.pow_pos_nonneg; lia).
  assert (Hq : 1 <= u / 10 ^ Z.of_nat k < 10).
  { split; [apply Z.div_le_lower_bound; lia|apply Z.div_lt_upper_bound; lia]. }
  rewrite Z.mod_small by lia. intros H. apply digit_zero in H; lia.
Qed.

Lemma FormatInt_read (x : Z) : decimal.read (strconv.FormatInt x) = Some x.
Proof.
  unfold strconv.FormatInt. destruct (x <? 0) eqn:E.
  - apply Z.ltb_lt in E. cbn [decimal.read].
    rewrite FormatUint_read by lia. cbn [option_map]. f_equal. lia.
  - apply Z.ltb_ge in E. pose proof (FormatUint_read x E) as H.
    pose proof (FormatUint_digits x) as [Hd _].
    destruct (strconv.FormatUint x) as [|c l]; [discriminate H|].
    cbn [forallb] in Hd. apply andb_true_iff in Hd as [Hc _].
    destruct c; try discriminate Hc; exact H.
Qed.

End Integers.

Lemma integer_conversion (v : value) (cfg : option EncoderOptions) (n lo hi : Z) :
  integer_of v = Some (n, (lo, hi)) -> lo <= n <= hi ->
  valueToBytes v cfg = (Some (strconv.FormatInt n), None).
Proof.
  intros Hv Hn.
  assert (Hu : 0 <= n -> strconv.FormatUint n = strconv.FormatInt n).
  { intros H. unfold strconv.FormatInt.
    destruct (n <? 0) eqn:E; [apply Z.ltb_lt in E; lia|reflexivity]. }
  destruct v; try discriminate Hv; cbn [integer_of] in Hv; inversion Hv; subst;
    cbn [valueToBytes typeSwitch]; try reflexivity; rewrite Hu; (reflexivity || lia).
Qed.

(** X5. Every integer value, of any of the ten integer types, converts
    without error to a non-nil text that reads back, as decimal digits
    after an optional minus sign, as the very number. *)
Theorem integer_text_roundtrip (v : value) (cfg : option EncoderOptions)
  (n lo hi : Z) :
  integer_of v = Some (n, (lo, hi)) -> lo <= n <= hi ->
  exists text,
    valueToBytes v cfg = (Some text, None)
    /\ decimal.read text = Some n.
Proof.
  intros Hv Hn. exists (strconv.FormatInt n).
  split; [now apply (integer_conversion v cfg n lo hi)|apply FormatInt_read].
Qed.

Lemma integer_text_roundtrip_witness :
  exists text,
    valueToBytes (Vint8 (-128)) None = (Some text, None)
    /\ decimal.read text = Some (-128).
Proof.
  apply (integer_text_roundtrip (Vint8 (-128)) None (-128) (- 2 ^ 7) (2 ^ 7 - 1));
    [reflexivity | lia].
Defined.

(** X6. The text of an integer value is canonical: a single minus sign
    exactly when the number is negative, then the decimal digits of its
    magnitude, at least one, with no leading zero but for the number zero,
    whose text is the one digit 0; no plus sign, no space, no other byte. *)
Theorem integer_text_canonical (v : value) (cfg : option EncoderOptions)
  (n lo hi : Z) :
  integer_of v = Some (n, (lo, hi)) -> lo <= n <= hi ->
  let ds := strconv.FormatUint (Z.abs n) in
  valueToBytes v cfg = (Some ((if n <? 0 then [x2d] else []) ++ ds), None)
  /\ forallb strconv.is_digit ds = true
  /\ (1 <= List.length ds)%nat
  /\ (n <> 0 -> hd x30 ds <> x30)
  /\ (n = 0 -> ds = [x30]).
Proof.
  intros Hv Hn ds. splits.
  - rewrite (integer_conversion v cfg n lo hi Hv Hn). unfold strconv.FormatInt, ds.
    destruct (n <? 0) eqn:E.
    + apply Z.ltb_lt in E. now rewrite Z.abs_neq by lia.
    + apply Z.ltb_ge in E. now rewrite Z.abs_eq by lia.
  - apply FormatUint_digits.
  - unfold ds. rewrite (proj2 (FormatUint_digits _)). apply ndigits_pos.
  - intros Hne. apply FormatUint_first. lia.
  - intros ->. reflexivity.
Qed.

Lemma integer_text_canonical_witness :
  valueToBytes (Vint64 (- 2 ^ 63)) None
  = (Some ([x2d] ++ strconv.FormatUint (2 ^ 63)), None)
  /\ hd x30 (strconv.FormatUint (2 ^ 63)) <> x30.
Proof.
  assert (Hn : - 2 ^ 63 <= - 2 ^ 63 <= 2 ^ 63 - 1) by lia.
  destruct (integer_text_canonical (Vint64 (- 2 ^ 63)) None (- 2 ^ 63) (- 2 ^ 63)
              (2 ^ 63 - 1) eq_refl Hn) as (H1 & _ & _ & H2 & _).
  assert (Hne : - 2 ^ 63 <> 0) by lia.
  exact (conj H1 (H2 Hne)).
Defined.

(* ================================================================== *)
(** * The value converter: results *)

Lemma VTime_converts (t : time.Time) (cfg : option EncoderOptions) :
  exists text, typeSwitch (VTime t) cfg = (Some text, None).
Proof.
  cbn [typeSwitch]. cbv zeta.
  destruct (time.Clock _) as [[hour min] sec].
  destruct ((hour =? 0) && (min =? 0) && (sec =? 0) && (_ =? 0));
    [eexists; reflexivity|].
  destruct (_ =? 0); eexists; reflexivity.
Qed.

(** The type switch returns bytes or an error, never both; the nil bytes
    come without error from the nil-like values only; and the error does
    not depend on the options. *)
Lemma typeSwitch_shape (v : value) (cfg : option EncoderOptions) :
  (snd (typeSwitch v cfg) <> None -> fst (typeSwitch v cfg) = None)
  /\ (typeSwitch v cfg = (None, None) <-> nil_like v = true)
  /\ (forall cfg', snd (typeSwitch v cfg') = snd (typeSwitch v cfg)).
Proof.
  destruct v;
    try (cbn [typeSwitch nil_like fst snd]; splits;
         [intros H; (reflexivity || now elim H)
         | split; (reflexivity || discriminate)
         | reflexivity]; fail).
  - destruct b as [l|]; cbn [typeSwitch nil_like fst snd]; splits;
      try (intros H; now elim H); try reflexivity; split; (reflexivity || discriminate).
  - destruct b as [l|]; cbn [typeSwitch nil_like fst snd]; splits;
      try (intros H; now elim H); try reflexivity; split; (reflexivity || discriminate).
  - destruct b; cbn [typeSwitch nil_like fst snd]; splits;
      try (intros H; now elim H); try reflexivity; split; discriminate.
  - destruct (VTime_converts t cfg) as [text H]. rewrite H.
    cbn [nil_like fst snd]. splits.
    + intros F. now elim F.
    + split; discriminate.
    + intros cfg'. destruct (VTime_converts t cfg') as [text' H']. now rewrite H'.
Qed.

(** X7. The converter returns bytes or an error, never both: with an
    error the bytes are nil.  It returns nil bytes without error, which
    the escaper writes as NULL, exactly for the nil interface, a nil
    [[]byte], a nil [json.RawMessage], and a [driver.Valuer] whose value is
    one of these: no string, integer, boolean or time is ever NULL.
    Whether a value converts does not depend on the options. *)
Theorem conversion_result_shape (v : value) (cfg : option EncoderOptions) :
  (snd (valueToBytes v cfg) <> None -> fst (valueToBytes v cfg) = None)
  /\ (valueToBytes v cfg = (None, None) <-> is_null v = true)
  /\ (forall cfg', snd (valueToBytes v cfg') = snd (valueToBytes v cfg))
  /\ (fst (EscapeValue v cfg) = Some [BACKSLASH; x4e] <-> is_null v = true).
Proof.
  assert (H : forall u, valueToBytes u cfg = typeSwitch u cfg
                        \/ exists T out verr, u = VValuer T out verr).
  { intros u. destruct u; try (left; reflexivity). right. eauto. }
  assert (Hmain :
    (snd (valueToBytes v cfg) <> None -> fst (valueToBytes v cfg) = None)
    /\ (valueToBytes v cfg = (None, None) <-> is_null v = true)
    /\ (forall cfg', snd (valueToBytes v cfg') = snd (valueToBytes v cfg))).
  { destruct v; try exact (typeSwitch_shape _ cfg).
    destruct verr as [x|].
    - cbn [valueToBytes is_null fst snd]. splits;
        [reflexivity | split; discriminate | reflexivity].
    - cbn [valueToBytes is_null]. exact (typeSwitch_shape v cfg). }
  destruct Hmain as (H1 & H2 & H3). splits; try assumption.
  unfold EscapeValue. rewrite <- H2.
  destruct (valueToBytes v cfg) as [[data|] [x|]] eqn:E; cbn [fst snd] in *.
  - split; discriminate.
  - split; [|discriminate]. intros F. exfalso.
    pose proof (f_equal (fun o => match o with
                                  | Some l => reader.unescape l
                                  | None => None
                                  end) F) as F1.
    cbv beta iota in F1. rewrite unescape_escapeField in F1. discriminate F1.
  - split; discriminate.
  - split; reflexivity.
Qed.

Lemma call_options (e : Encoder) (o : op) :
  encoderOptions (call e o) = encoderOptions e.
Proof.
  destruct o; cbn [call]; unfold AppendString, AppendBytes, AppendValue, Close;
    try reflexivity; destruct (err e); try reflexivity;
    try apply writeField_options.
  - destruct (valueToBytes v (encoderOptions e)) as [b [x|]];
      [reflexivity|apply writeField_options].
  - now destruct (bufio.Flush (w e)).
Qed.

(** Each append call is [AppendBytes] of the field it converts to. *)
Lemma call_as_AppendBytes (e : Encoder) (o : op) :
  is_append o = true -> converts (encoderOptions e) o = true ->
  call e o = AppendBytes e (field_of (encoderOptions e) o).
Proof.
  destruct o; try discriminate; intros _ Hc; cbn [call field_of]; try reflexivity.
  unfold AppendValue, AppendBytes. cbn [converts] in Hc.
  destruct (err e); [reflexivity|].
  now destruct (valueToBytes v (encoderOptions e)) as [b [x|]].
Qed.

(** X8. The three append methods are one.  A session of [AppendString],
    [AppendValue] and [AppendBytes] calls whose values convert leaves the
    encoder, its writer and its sink exactly as the session that calls
    [AppendBytes] with the converted bytes of each: a string as its bytes
    and never as nil, a nil [[]byte], [json.RawMessage] or interface as
    nil.  This holds from every state of the encoder, an error latched or
    not, and whatever the sink answers. *)
Theorem appends_as_AppendBytes (ops : list op) (e : Encoder) :
  forallb is_append ops = true ->
  forallb (converts (encoderOptions e)) ops = true ->
  run ops e
  = run (map (fun o => CallAppendBytes (field_of (encoderOptions e) o)) ops) e.
Proof.
  revert e. induction ops as [|o ops IH]; intros e Ha Hc; [reflexivity|].
  cbn [forallb] in Ha, Hc.
  apply andb_true_iff in Ha as [Ho Ha]. apply andb_true_iff in Hc as [Hco Hc].
  cbn [map]. change (run (?x :: ?l) e) with (run l (call e x)).
  cbn [call]. rewrite <- (call_as_AppendBytes e o Ho Hco).
  rewrite (IH (call e o)); [now rewrite call_options | exact Ha |].
  now rewrite call_options.
Qed.

Lemma appends_as_AppendBytes_witness :
  run [CallAppendString []; CallAppendValue Vnil; CallAppendValue (Vint 7)]
    sample.cramped
  = run [CallAppendBytes (Some []); CallAppendBytes None;
         CallAppendBytes (Some (strconv.FormatInt 7))]
      sample.cramped.
Proof.
  apply (appends_as_AppendBytes
           [CallAppendString []; CallAppendValue Vnil; CallAppendValue (Vint 7)]
           sample.cramped); reflexivity.
Defined.

(* ================================================================== *)
(** * Reading the stream back *)

Section ReadBack.

Lemma row_pieces_well_formed (r : list bytes) :
  Forall spec.well_formed (spec.row_pieces r).
Proof.
  induction r as [|f r IH]; [constructor|].
  destruct r as [|g r]; constructor; auto; split; cbn [fst snd];
    auto using escapeField_no_terminator.
Qed.

Lemma rows_pieces_well_formed (rs : list (list bytes)) :
  Forall spec.well_formed (List.concat (map spec.row_pieces rs)).
Proof.
  induction rs as [|r rs IH]; [constructor|].
  cbn [map List.concat]. apply Forall_app. split; [apply row_pieces_well_formed|exact IH].
Qed.

Lemma group_row (r : list bytes) :
  r <> [] ->
  forall cur ps,
    table.group cur (spec.row_pieces r ++ ps)
    = option_map (cons (cur ++ r)) (table.group [] ps).
Proof.
  induction r as [|f r IH]; intros Hr cur ps; [now elim Hr|].
  destruct r as [|g r].
  - cbn [spec.row_pieces app table.group]. now rewrite unescape_escapeField.
  - change (spec.row_pieces (f :: g :: r))
      with ((escapeField nil_slice f, TAB) :: spec.row_pieces (g :: r)).
    cbn [app table.group]. rewrite unescape_escapeField.
    change (Byte.eqb TAB LF) with false. cbv iota.
    rewrite IH by discriminate. now rewrite <- app_assoc.
Qed.

Lemma group_rows (rs : list (list bytes)) :
  Forall (fun r => r <> []) rs ->
  table.group [] (List.concat (map spec.row_pieces rs)) = Some rs.
Proof.
  induction 1 as [|r rs Hr _ IH]; [reflexivity|].
  cbn [map List.concat]. now rewrite group_row, IH.
Qed.

(** The rows of the format read back as the fields they were made of. *)
Lemma read_rows_of_format (rs : list (list bytes)) :
  Forall (fun r => r <> []) rs -> table.read (spec.rows rs) = Some rs.
Proof.
  intros H. unfold table.read. rewrite <- flatten_rows.
  rewrite cut_flatten by apply rows_pieces_well_formed. now apply group_rows.
Qed.

(** What the encoder has emitted after rows of appends that succeeded. *)
Lemma rows_stream (sink : io.Writer) (n : Z) (cfg : option EncoderOptions)
  (rows : list (list op)) :
  0 < n <= int.max ->
  Forall (fun r => Z.of_nat (List.length r) = n /\ forallb is_append r = true) rows ->
  Error (run (List.concat rows) (NewEncoder sink n cfg)) = None ->
  stream (run (List.concat rows) (NewEncoder sink n cfg))
  = io.taken sink ++ spec.rows (map (map (field_of cfg)) rows).
Proof.
  intros Hn Hrows Herr.
  destruct (Forall_rows n rows cfg Hrows) as [Hlen Happ].
  destruct (run_appends _ _ Happ Herr) as (_ & _ & _ & Hs & _).
  cbn [NewEncoder numColumnsPerRow colsLeftInRow encoderOptions] in Hs.
  rewrite stream_NewEncoder in Hs.
  now rewrite concat_map, (frame_rows n Hn _ Hlen), flatten_rows in Hs.
Qed.

Lemma rows_nonempty (n : Z) (rs : list (list bytes)) :
  0 < n -> Forall (fun r => Z.of_nat (List.length r) = n) rs ->
  Forall (fun r => r <> []) rs.
Proof.
  intros Hn H. eapply Forall_impl; [|exact H].
  intros r Hr ->. simpl in Hr. lia.
Qed.

(** [Close] over a writer that cannot fail returns nil and leaves the
    whole stream in the sink. *)
Lemma Close_healthy (e : Encoder) :
  healthy (w e) -> err e = None ->
  fst (Close e) = None
  /\ io.taken (bufio.wr (w (snd (Close e)))) = stream e.
Proof.
  intros Hh He. unfold Close. rewrite He.
  destruct (Flush_healthy (w e) Hh) as [Hf _].
  destruct (bufio.Flush (w e)) as [fe w1] eqn:E. cbn [fst snd] in *. subst fe.
  destruct (Flush_spec _ _ _ E) as (_ & _ & _ & Hok & _).
  split; [reflexivity|]. cbn [w]. now apply Hok.
Qed.

End ReadBack.

(** X9. On an encoder without error, [AppendValue] writes what
    [EscapeValue] returns for the value, followed by one terminator, tab
    or newline: the bytes of the one-shot escape are the bytes of the
    field in the stream, and they read back as the converted value.  When
    [EscapeValue] returns an error, [AppendValue] latches that error and
    writes nothing. *)
Theorem AppendValue_writes_EscapeValue (e : Encoder) (v : value) :
  Error e = None ->
  match EscapeValue v (encoderOptions e) with
  | (_, Some x) =>
      Error (AppendValue e v) = Some x /\ stream (AppendValue e v) = stream e
  | (None, None) => False
  | (Some field, None) =>
      reader.unescape field = Some (fst (valueToBytes v (encoderOptions e)))
      /\ (Error (AppendValue e v) = None ->
          exists t, spec.is_terminator t = true
                    /\ stream (AppendValue e v) = stream e ++ field ++ [t])
  end.
Proof.
  unfold Error. intros He. unfold EscapeValue, AppendValue. rewrite He.
  destruct (valueToBytes v (encoderOptions e)) as [b [x|]]; cbn [fst].
  - split; reflexivity.
  - split; [apply unescape_escapeField|]. intros Hok.
    destruct (writeField_spec e b) as (_ & _ & _ & Hw).
    destruct (Hw Hok) as [Hs _]. exists (terminator_of e). split; [|exact Hs].
    unfold terminator_of. now destruct (int.dec (colsLeftInRow e) =? 0).
Qed.

Lemma AppendValue_writes_EscapeValue_witness :
  let e := NewEncoder (io.Buffer []) 2 None in
  let v := Vstring [x61; TAB; x62] in
  exists t, spec.is_terminator t = true
            /\ stream (AppendValue e v)
               = stream e ++ [QUOTE; x61; BACKSLASH; x74; x62; QUOTE] ++ [t].
Proof.
  pose proof (AppendValue_writes_EscapeValue (NewEncoder (io.Buffer []) 2 None)
                (Vstring [x61; TAB; x62]) eq_refl) as H.
  cbv zeta. apply (proj2 H). vm_compute. reflexivity.
Defined.

(** X10. What an encoder of [n > 0] columns emits for rows of [n] appends
    that all succeed reads back, row by row and field by field, as the
    bytes that were appended, nil as NULL: no field is split, merged or
    moved to another row, whatever bytes the fields hold. *)
Theorem stream_roundtrip (sink : io.Writer) (n : Z) (cfg : option EncoderOptions)
  (rows : list (list op)) :
  0 < n <= int.max ->
  Forall (fun r => Z.of_nat (List.length r) = n /\ forallb is_append r = true) rows ->
  Error (run (List.concat rows) (NewEncoder sink n cfg)) = None ->
  table.read (produced (io.taken sink) (run (List.concat rows) (NewEncoder sink n cfg)))
  = Some (map (map (field_of cfg)) rows).
Proof.
  intros Hn Hrows Herr.
  rewrite (produced_app _ _ _ (rows_stream sink n cfg rows Hn Hrows Herr)).
  apply read_rows_of_format.
  apply (rows_nonempty n); [lia|]. apply (Forall_rows n rows cfg Hrows).
Qed.

Lemma stream_roundtrip_witness :
  table.read (produced [] (run (List.concat sample.rows) (NewEncoder (io.Buffer []) 2 None)))
  = Some (map (map (field_of None)) sample.rows).
Proof.
  apply (stream_roundtrip (io.Buffer []) 2 None sample.rows).
  - unfold int.max. lia.
  - repeat constructor.
  - vm_compute. reflexivity.
Defined.

Section RoundtripTest.

Lemma test_calls_shape (dataRows : list (list byte)) :
  forall i,
    Forall (fun r => Z.of_nat (List.length r) = 2 /\ forallb is_append r = true)
      (test_calls i dataRows)
    /\ forallb (converts None) (List.concat (test_calls i dataRows)) = true.
Proof.
  induction dataRows as [|row rest IH]; intros i; [split; [constructor|reflexivity]|].
  destruct (IH (i + 1)) as [IH1 IH2]. split.
  - constructor; [split; reflexivity|exact IH1].
  - cbn [test_calls List.concat app forallb converts]. exact IH2.
Qed.

Lemma test_calls_read (dataRows : list (list byte)) :
  forall i,
    table.read_rows (map (map (field_of None)) (test_calls i dataRows))
    = Some (test_rows i dataRows).
Proof.
  induction dataRows as [|row rest IH]; intros i; [reflexivity|].
  cbn [test_calls test_rows map table.read_rows]. rewrite IH.
  cbn [field_of valueToBytes typeSwitch fst table.read_row].
  now rewrite FormatInt_read.
Qed.

Lemma test_rows_length (dataRows : list (list byte)) :
  forall i, List.length (test_rows i dataRows) = List.length dataRows.
Proof.
  induction dataRows as [|row rest IH]; intros i; [reflexivity|].
  cbn [test_rows List.length]. now rewrite IH.
Qed.

End RoundtripTest.

(** X11. The encoding half of [TestRoundtrip], for any [dataRows]: over a
    [bytes.Buffer], a two-column encoder fed the row number and the row's
    bytes for each row closes without error, and the buffer then reads
    back, as a table of an integer and a blob column, as the rows in
    order, each with its number and its bytes unchanged. *)
Theorem roundtrip_test_encoding (dataRows : list (list byte)) :
  let e := run (List.concat (test_calls 0 dataRows)) (NewEncoder (io.Buffer []) 2 None) in
  Error e = None
  /\ fst (Close e) = None
  /\ table.read_table (io.taken (bufio.wr (w (snd (Close e)))))
     = Some (test_rows 0 dataRows)
  /\ List.length (test_rows 0 dataRows) = List.length dataRows.
Proof.
  intros e.
  destruct (test_calls_shape dataRows 0) as [Hshape Hconv].
  assert (Hrun : err e = None /\ healthy (w e)).
  { apply (run_healthy _ (NewEncoder (io.Buffer []) 2 None)); auto. now split. }
  destruct Hrun as [Herr Hh].
  destruct (Close_healthy e Hh Herr) as [Hc Ht].
  assert (Hn : 0 < 2 <= int.max) by (unfold int.max; lia).
  pose proof (rows_stream (io.Buffer []) 2 None _ Hn Hshape Herr) as Hs.
  cbn [io.Buffer io.taken app] in Hs. fold e in Hs.
  splits.
  - exact Herr.
  - exact Hc.
  - rewrite Ht, Hs. unfold table.read_table.
    rewrite read_rows_of_format.
    + apply test_calls_read.
    + apply (rows_nonempty 2); [lia|]. apply (Forall_rows 2 _ None Hshape).
  - apply test_rows_length.
Qed.

(* ================================================================== *)
(** * The counter between rows, and column counts that are not positive *)

Section Counter.

Variable n : Z.
Hypothesis Hn : 0 < n <= int.max.

Lemma mod_succ (i : Z) :
  (i + 1) mod n = (if i mod n + 1 =? n then 0 else i mod n + 1)
  /\ (i + 1) / n = i / n + (if i mod n + 1 =? n then 1 else 0).
Proof.
  pose proof (Z.mod_pos_bound i n ltac:(lia)) as Hr.
  pose proof (Z.div_mod i n ltac:(lia)) as Hdm.
  destruct (i mod n + 1 =? n) eqn:E.
  - apply Z.eqb_eq in E.
    assert (H : i + 1 = n * (i / n + 1) + 0) by nia.
    split; symmetry.
    + apply (Z.mod_unique _ _ (i / n + 1)); [left; lia|exact H].
    + apply (Z.div_unique _ _ _ 0); [left; lia|exact H].
  - apply Z.eqb_neq in E.
    assert (H : i + 1 = n * (i / n) + (i mod n + 1)) by nia.
    split; symmetry.
    + apply (Z.mod_unique _ _ (i / n)); [left; lia|exact H].
    + rewrite Z.add_0_r. apply (Z.div_unique _ _ _ (i mod n + 1)); [left; lia|exact H].
Qed.

Lemma counter_after_mod (k : nat) :
  forall i c, c = n - Z.of_nat i mod n ->
    counter_after n c k = n - Z.of_nat (i + k) mod n.
Proof.
  induction k as [|k IH]; intros i c Hc.
  - now rewrite Nat.add_0_r.
  - pose proof (Z.mod_pos_bound (Z.of_nat i) n ltac:(lia)) as Hr.
    cbn [counter_after]. rewrite int_dec_in_range by lia.
    replace (i + S k)%nat with (S i + k)%nat by lia. apply IH.
    rewrite Nat2Z.inj_succ. unfold Z.succ.
    destruct (mod_succ (Z.of_nat i)) as [Hm _]. rewrite Hm.
    destruct (Z.eqb_spec (c - 1) 0);
      destruct (Z.eqb_spec (Z.of_nat i mod n + 1) n); lia.
Qed.

Lemma terminator_counts (i : nat) :
  Z.of_nat (count LF [spec.terminator n (S i)])
  = (if Z.of_nat i mod n + 1 =? n then 1 else 0)
  /\ Z.of_nat (count TAB [spec.terminator n (S i)])
     = 1 - (if Z.of_nat i mod n + 1 =? n then 1 else 0).
Proof.
  unfold spec.terminator. rewrite Nat2Z.inj_succ. unfold Z.succ.
  destruct (mod_succ (Z.of_nat i)) as [Hm _]. rewrite Hm.
  pose proof (Z.mod_pos_bound (Z.of_nat i) n ltac:(lia)) as Hr.
  destruct (Z.of_nat i mod n + 1 =? n) eqn:E; [now split|].
  destruct (Z.of_nat i mod n + 1 =? 0) eqn:E0; [apply Z.eqb_eq in E0; lia|].
  now split.
Qed.

Lemma numbered_counts (fields : list bytes) :
  forall i,
    Z.of_nat (count LF (spec.flatten (spec.numbered n i fields)))
    = (Z.of_nat i + Z.of_nat (List.length fields)) / n - Z.of_nat i / n
    /\ Z.of_nat (count TAB (spec.flatten (spec.numbered n i fields)))
       = Z.of_nat (List.length fields)
         - ((Z.of_nat i + Z.of_nat (List.length fields)) / n - Z.of_nat i / n).
Proof.
  induction fields as [|f fs IH]; intros i.
  - cbn [spec.numbered spec.flatten flat_map List.length]. rewrite Z.add_0_r.
    split; change (count _ []) with 0%nat; lia.
  - destruct (IH (S i)) as [IHl IHt].
    change (spec.flatten (spec.numbered n i (f :: fs)))
      with ((escapeField nil_slice f ++ [spec.terminator n (S i)])
              ++ spec.flatten (spec.numbered n (S i) fs)).
    destruct (count_piece f (spec.terminator n (S i))
                (spec.flatten (spec.numbered n (S i) fs))) as [Hl Ht].
    destruct (terminator_counts i) as [Tl Tt].
    destruct (mod_succ (Z.of_nat i)) as [_ Hd].
    rewrite Hl, Ht, !Nat2Z.inj_add, IHl, IHt, Tl, Tt.
    cbn [List.length]. rewrite !Nat2Z.inj_succ. unfold Z.succ.
    replace (Z.of_nat i + (Z.of_nat (List.length fs) + 1))
      with (Z.of_nat i + 1 + Z.of_nat (List.length fs)) by lia.
    rewrite Hd. split; lia.
Qed.

End Counter.

Lemma frame_nonpositive (n : Z) (fields : list bytes) :
  forall c, c <= 0 -> - 2 ^ 63 <= c - Z.of_nat (List.length fields) ->
    frame n c fields = map (fun f => (escapeField nil_slice f, TAB)) fields
    /\ counter_after n c (List.length fields) = c - Z.of_nat (List.length fields).
Proof.
  induction fields as [|f fs IH]; intros c Hc Hlen.
  - cbn [frame map counter_after List.length]. split; [reflexivity|lia].
  - cbn [List.length] in Hlen. rewrite Nat2Z.inj_succ in Hlen.
    cbn [frame map counter_after List.length].
    rewrite int_dec_in_range by (unfold int.max; lia).
    destruct (c - 1 =? 0) eqn:E; [apply Z.eqb_eq in E; lia|].
    destruct (IH (c - 1)) as [IH1 IH2]; [lia|lia|].
    rewrite IH1, IH2. split; [reflexivity|lia].
Qed.

Lemma count_tab_pieces (fields : list bytes) :
  count LF (spec.flatten (map (fun f => (escapeField nil_slice f, TAB)) fields)) = 0%nat
  /\ count TAB (spec.flatten (map (fun f => (escapeField nil_slice f, TAB)) fields))
     = List.length fields.
Proof.
  induction fields as [|f fs [IH1 IH2]]; [split; reflexivity|].
  change (spec.flatten (map (fun f => (escapeField nil_slice f, TAB)) (f :: fs)))
    with ((escapeField nil_slice f ++ [TAB])
            ++ spec.flatten (map (fun f => (escapeField nil_slice f, TAB)) fs)).
  destruct (count_piece f TAB
              (spec.flatten (map (fun f => (escapeField nil_slice f, TAB)) fs)))
    as [Hl Ht].
  rewrite Hl, Ht, IH1, IH2. split; reflexivity.
Qed.

(** X12. After [k] appends that all succeeded, on an encoder of [n > 0]
    columns, the counter is [n - k mod n], the fields the current row
    still lacks; the output holds [k / n] newlines, one for each complete
    row, and [k - k / n] tabs, whether or not [k] is a multiple of [n]. *)
Theorem partial_rows (sink : io.Writer) (n : Z) (cfg : option EncoderOptions)
  (ops : list op) :
  0 < n <= int.max ->
  forallb is_append ops = true ->
  Error (run ops (NewEncoder sink n cfg)) = None ->
  let e := run ops (NewEncoder sink n cfg) in
  let out := produced (io.taken sink) e in
  let k := Z.of_nat (List.length ops) in
  colsLeftInRow e = n - k mod n
  /\ Z.of_nat (count LF out) = k / n
  /\ Z.of_nat (count TAB out) = k - k / n.
Proof.
  intros Hn Happ Herr e out k.
  destruct (run_appends _ _ Happ Herr) as (_ & _ & _ & Hs & Hc).
  cbn [NewEncoder numColumnsPerRow colsLeftInRow encoderOptions] in Hs, Hc.
  rewrite stream_NewEncoder in Hs.
  rewrite (frame_numbered n Hn _ 0 n) in Hs by (rewrite Z.mod_0_l; lia).
  assert (Hout : out = spec.flatten (spec.numbered n 0 (map (field_of cfg) ops)))
    by (now apply produced_app).
  destruct (numbered_counts n Hn (map (field_of cfg) ops) 0) as [Hl Ht].
  rewrite length_map in Hl, Ht. change (Z.of_nat 0) with 0 in Hl, Ht.
  rewrite Z.div_0_l, Z.add_0_l, Z.sub_0_r in Hl, Ht by lia.
  splits.
  - unfold e. rewrite Hc.
    rewrite (counter_after_mod n Hn _ 0 n) by (rewrite Z.mod_0_l; lia).
    reflexivity.
  - now rewrite Hout.
  - now rewrite Hout.
Qed.

Lemma partial_rows_witness :
  let ops := List.concat sample.rows ++ [CallAppendValue (Vbool true)] in
  let e := run ops (NewEncoder (io.Buffer []) 2 None) in
  colsLeftInRow e = 2 - 5 mod 2
  /\ Z.of_nat (count LF (produced [] e)) = 5 / 2
  /\ Z.of_nat (count TAB (produced [] e)) = 5 - 5 / 2.
Proof.
  apply (partial_rows (io.Buffer []) 2 None
           (List.concat sample.rows ++ [CallAppendValue (Vbool true)])).
  - unfold int.max. lia.
  - reflexivity.
  - vm_compute. reflexivity.
Defined.



(* ================================================================== *)
(** * Closing, and what is buffered until then *)

Section Closing.

Lemma Flush_idempotent (b : bufio.Writer) :
  bufio.Flush (snd (bufio.Flush b)) = bufio.Flush b.
Proof.
  unfold bufio.Flush at 2 3. destruct (bufio.err b) as [x|] eqn:Hx.
  { cbn [snd]. unfold bufio.Flush. now rewrite Hx. }
  destruct (bufio.Buffered b =? 0)%nat eqn:Hb.
  { cbn [snd]. unfold bufio.Flush. now rewrite Hx, Hb. }
  destruct (io.Write (bufio.wr b) (bufio.buf b)) as [[n we] wr'].
  destruct ((n <? bufio.Buffered b)%nat && is_nil we); [reflexivity|].
  destruct we as [x|]; reflexivity.
Qed.

(** Writing a field on a writer that holds an error writes nothing and
    latches that error. *)
Lemma writeField_on_failed_writer (e : Encoder) (b : bytes) (y : error) :
  bufio.err (w e) = Some y ->
  writeField e b
  = mkEncoder (w e) (numColumnsPerRow e) (colsLeftInRow e) (Some y) (encoderOptions e).
Proof.
  intros Hy. unfold writeField.
  destruct (bufio.Write (w e) _) as [[nn we] w1] eqn:Hw.
  destruct (Write_spec _ _ _ _ _ Hw) as (He & _ & _ & _ & Hsame).
  assert (H1 : w1 = w e) by (apply Hsame; congruence). subst w1.
  rewrite Hy in He. subst we. reflexivity.
Qed.

Lemma Write_fits (b : bufio.Writer) (p : list byte) :
  bufio.err b = None ->
  (List.length (bufio.buf b) + List.length p <= bufio.size b)%nat ->
  bufio.Write b p
  = ((List.length p, None),
     bufio.mkWriter None (bufio.buf b ++ p) (bufio.size b) (bufio.wr b)).
Proof.
  intros He Hfit. unfold bufio.Write.
  assert (Hav : (bufio.Available b <? List.length p)%nat = false).
  { apply Nat.ltb_ge. unfold bufio.Available, bufio.Buffered. lia. }
  rewrite Write_loop_unfold. unfold bufio.loop_cond. rewrite Hav. cbn [andb].
  rewrite He. apply Nat.ltb_ge in Hav.
  now rewrite (Nat.min_r _ _ Hav), firstn_all.
Qed.

Lemma WriteByte_fits (b : bufio.Writer) (c : byte) :
  bufio.err b = None ->
  (List.length (bufio.buf b) < bufio.size b)%nat ->
  bufio.WriteByte b c = (None, bufio.put b c).
Proof.
  intros He Hfit. unfold bufio.WriteByte. rewrite He.
  assert (H : (bufio.Available b <=? 0)%nat = false).
  { apply Nat.leb_gt. unfold bufio.Available, bufio.Buffered. lia. }
  now rewrite H.
Qed.

(** A field that fits the buffer with its terminator goes to the buffer;
    the sink is not called. *)
Lemma writeField_fits (e : Encoder) (b : bytes) :
  bufio.err (w e) = None ->
  (List.length (bufio.buf (w e)) + List.length (escapeField nil_slice b) + 1
   <= bufio.size (w e))%nat ->
  writeField e b
  = mkEncoder
      (bufio.mkWriter None
         (bufio.buf (w e) ++ escapeField nil_slice b ++ [terminator_of e])
         (bufio.size (w e)) (bufio.wr (w e)))
      (numColumnsPerRow e) (counter_next e) None (encoderOptions e).
Proof.
  intros He Hfit. unfold writeField, terminator_of, counter_next.
  rewrite escapeField_AvailableBuffer, Write_fits by (auto; lia).
  destruct (int.dec (colsLeftInRow e) =? 0);
    (rewrite WriteByte_fits; [|reflexivity|cbn [bufio.buf bufio.size]; rewrite length_app; lia]);
    unfold bufio.put; cbn [bufio.err bufio.buf bufio.size bufio.wr];
    now rewrite <- app_assoc.
Qed.

Lemma run_fits (ops : list op) :
  forall e,
    forallb is_append ops = true ->
    forallb (converts (encoderOptions e)) ops = true ->
    err e = None -> bufio.err (w e) = None ->
    (List.length (bufio.buf (w e))
     + List.length (spec.flatten
                      (frame (numColumnsPerRow e) (colsLeftInRow e)
                         (map (field_of (encoderOptions e)) ops)))
     <= bufio.size (w e))%nat ->
    err (run ops e) = None
    /\ bufio.wr (w (run ops e)) = bufio.wr (w e)
    /\ bufio.buf (w (run ops e))
       = bufio.buf (w e)
           ++ spec.flatten
                (frame (numColumnsPerRow e) (colsLeftInRow e)
                   (map (field_of (encoderOptions e)) ops)).
Proof.
  induction ops as [|o ops IH]; intros e Happ Hconv He Hb Hfit.
  - cbn [run fold_left map frame spec.flatten flat_map]. rewrite app_nil_r. auto.
  - cbn [forallb] in Happ, Hconv.
    apply andb_true_iff in Happ as [Ho Hops].
    apply andb_true_iff in Hconv as [Hco Hcops].
    change (run (o :: ops) e) with (run ops (call e o)).
    assert (Hcall : call e o = writeField e (field_of (encoderOptions e) o)).
    { destruct o; try discriminate Ho; cbn [call field_of];
        unfold AppendString, AppendBytes, AppendValue; rewrite He; try reflexivity.
      cbn [converts] in Hco.
      now destruct (valueToBytes v (encoderOptions e)) as [b [x|]]. }
    cbn [map frame] in Hfit |- *.
    set (f := field_of (encoderOptions e) o) in *.
    assert (Hpiece : forall t rest,
              spec.flatten ((escapeField nil_slice f, t) :: rest)
              = (escapeField nil_slice f ++ [t]) ++ spec.flatten rest) by reflexivity.
    assert (Hw : (List.length (bufio.buf (w e)) + List.length (escapeField nil_slice f) + 1
                  <= bufio.size (w e))%nat).
    { destruct (int.dec (colsLeftInRow e) =? 0);
        rewrite Hpiece, !length_app in Hfit; cbn [List.length] in Hfit; lia. }
    pose proof (writeField_fits e f Hb Hw) as Hwf. rewrite <- Hcall in Hwf.
    unfold terminator_of, counter_next in Hwf.
    destruct (IH (call e o)) as (H1 & H2 & H3); rewrite ?Hwf;
      cbn [err w encoderOptions numColumnsPerRow colsLeftInRow
           bufio.err bufio.buf bufio.size bufio.wr]; auto.
    + destruct (int.dec (colsLeftInRow e) =? 0);
        rewrite Hpiece, !length_app in Hfit; rewrite !length_app;
        cbn [List.length] in *; lia.
    + rewrite Hwf in H1, H2, H3.
      cbn [err w encoderOptions numColumnsPerRow colsLeftInRow
           bufio.err bufio.buf bufio.size bufio.wr] in H1, H2, H3.
      splits; auto. rewrite H3.
      destruct (int.dec (colsLeftInRow e) =? 0);
        rewrite Hpiece, <- !app_assoc; reflexivity.
Qed.

(** While appends succeed the writer holds no error. *)
Lemma run_writer_ok (ops : list op) :
  forall e, forallb is_append ops = true -> err (run ops e) = None ->
    bufio.err (w e) = None -> bufio.err (w (run ops e)) = None.
Proof.
  induction ops as [|o ops IH]; intros e Ha Hr Hb; [exact Hb|].
  cbn [forallb] in Ha. apply andb_true_iff in Ha as [Ho Hl].
  change (run (o :: ops) e) with (run ops (call e o)) in *.
  apply IH; auto.
  assert (Hc : err (call e o) = None).
  { destruct (err (call e o)) eqn:E; [|reflexivity].
    rewrite run_latched in Hr by congruence. congruence. }
  destruct (append_ok e o Ho Hc) as [_ Hcall]. rewrite Hcall.
  rewrite <- writeField_err. now rewrite <- Hcall.
Qed.

End Closing.





(* ================================================================== *)
(** * Text that needs no escaping *)

Section PlainText.

Lemma digit_plain (c : byte) : strconv.is_digit c = true -> is_special c = false.
Proof. destruct c; (reflexivity || discriminate). Qed.

Lemma digits_plain (l : list byte) :
  forallb strconv.is_digit l = true -> plain l = true.
Proof.
  unfold plain. induction l as [|c l IH]; [reflexivity|].
  cbn [forallb]. intros H. apply andb_true_iff in H as [Hc Hl].
  now rewrite (digit_plain c Hc), IH.
Qed.

Lemma plain_app (l1 l2 : list byte) : plain (l1 ++ l2) = plain l1 && plain l2.
Proof. apply forallb_app. Qed.

Lemma fixed_plain (width : nat) (u : Z) : plain (strconv.fixed width u) = true.
Proof. apply digits_plain, fixed_digits. Qed.

Lemma FormatUint_plain (u : Z) : plain (strconv.FormatUint u) = true.
Proof. apply fixed_plain. Qed.

Lemma FormatInt_plain (x : Z) : plain (strconv.FormatInt x) = true.
Proof.
  unfold strconv.FormatInt. destruct (x <? 0).
  - change (x2d :: ?l) with ([x2d] ++ l). now rewrite plain_app, FormatUint_plain.
  - apply FormatUint_plain.
Qed.

Lemma appendInt_plain (x : Z) (width : nat) : plain (time.appendInt x width) = true.
Proof.
  unfold time.appendInt. rewrite plain_app, fixed_plain. now destruct (x <? 0).
Qed.

Lemma trim_zeros_plain (l : list byte) : plain l = true -> plain (time.trim_zeros l) = true.
Proof.
  unfold plain, time.trim_zeros. intros H.
  rewrite forallb_rev. apply trim_zeros_rev_forallb. now rewrite forallb_rev.
Qed.

Lemma format_date_plain (t : time.Time) : plain (time.format_date t) = true.
Proof.
  unfold time.format_date. destruct (time.Date t) as [[y m] d].
  now rewrite !plain_app, !appendInt_plain.
Qed.

Lemma format_clock_plain (t : time.Time) : plain (time.format_clock t) = true.
Proof.
  unfold time.format_clock. destruct (time.Clock t) as [[hour min] sec].
  now rewrite !plain_app, !appendInt_plain.
Qed.

Lemma appendNano_plain (t : time.Time) : plain (time.appendNano t) = true.
Proof.
  unfold time.appendNano, time.frac_digits. destruct (time.Nanosecond t =? 0); [reflexivity|].
  change (x2e :: ?l) with ([x2e] ++ l).
  now rewrite plain_app, trim_zeros_plain by apply appendInt_plain.
Qed.

Lemma VTime_plain (t : time.Time) (cfg : option EncoderOptions) :
  exists text, typeSwitch (VTime t) cfg = (Some text, None) /\ plain text = true.
Proof.
  cbn [typeSwitch]. cbv zeta.
  set (v := match cfg with
            | Some (mkEncoderOptions (Some l)) => time.In t l
            | _ => t
            end).
  destruct (Format_layouts v) as (F1 & F2 & F3). rewrite F1, F2, F3.
  destruct (time.Clock v) as [[hour min] sec].
  destruct ((hour =? 0) && (min =? 0) && (sec =? 0) && (time.Nanosecond v =? 0)).
  - eexists. split; [reflexivity|apply format_date_plain].
  - destruct (time.Nanosecond v =? 0); eexists; (split; [reflexivity|]);
      now rewrite !plain_app, ?format_date_plain, ?format_clock_plain, ?appendNano_plain.
Qed.

Lemma scalar_plain (v : value) (cfg : option EncoderOptions) :
  is_scalar v = true ->
  exists text, valueToBytes v cfg = (Some text, None) /\ plain text = true.
Proof.
  destruct v; try discriminate; intros _; cbn [valueToBytes typeSwitch];
    try (eexists; split; [reflexivity|]; (apply FormatUint_plain || apply FormatInt_plain)).
  - destruct b; eexists; split; reflexivity.
  - apply VTime_plain.
Qed.

End PlainText.

(** X16. Integers, booleans and times convert to text that holds no byte
    of the escaper's table, so escaping changes nothing in it: the escaped
    value is that text between two quotes, with no backslash, and
    [EscapeValue] never fails on such a value. *)
Theorem scalar_text_unescaped (v : value) (cfg : option EncoderOptions) :
  is_scalar v = true ->
  exists text,
    valueToBytes v cfg = (Some text, None)
    /\ plain text = true
    /\ EscapeValue v cfg = (Some ([QUOTE] ++ text ++ [QUOTE]), None).
Proof.
  intros Hv. destruct (scalar_plain v cfg Hv) as (text & Hc & Hp).
  exists text. splits; auto.
  unfold EscapeValue. rewrite Hc, escapeField_nil_slice. unfold spec_escape.
  now rewrite (flat_map_escape_plain text Hp).
Qed.

Lemma scalar_text_unescaped_witness :
  exists text,
    valueToBytes (VTime sample.leap_noon) sample.east = (Some text, None)
    /\ plain text = true
    /\ EscapeValue (VTime sample.leap_noon) sample.east
       = (Some ([QUOTE] ++ text ++ [QUOTE]), None).
Proof.
  apply (scalar_text_unescaped (VTime sample.leap_noon) sample.east). reflexivity.
Defined.
